(** * UserService: the in-memory user store of the NestJS example API

    Shallow embedding of [src/users/user.service.ts] (the base variant) and
    of the DTO variant of the same service given in [readme2.md].

    Modelling choices.
    - A TypeScript [number] used as an id or as an array index is a
      mathematical integer ([Z]).  In the base variant the service only
      computes [length + 1] on such numbers, which is exact.  In the DTO
      variant the counter [idCounter] is a double that starts at 1 and
      is only ever changed by [++]: it runs through the integers up to
      2^53 and stays there, since 2^53 + 1 rounds back to 2^53 ([incr]).
    - The array [users] is a [list]; [push], [find], [findIndex],
      [splice (i, 1)] and the indexed assignment are given once, for
      arrays of any element type, in [Section Array].
    - The base variant builds its records from two strings and a number,
      so they are records [User.t].  The DTO variant builds its records
      by spreading the objects it is handed, whatever properties they
      carry; there an object is a finite map from property names to
      values ([obj]) and a spread is a union of such maps.
    - The mutable fields of the service are threaded explicitly: an
      operation that mutates [this] returns its result together with the
      new service state.
    - [null] and [undefined] results are [None]. *)

From stdpp Require Import base numbers option list strings sorting gmap.

Local Open Scope Z_scope.

(** ** Data model *)

(** [interface User { id: number; name: string; email: string }] *)
Module User.
Record t : Type := mk { id : Z; name : string; email : string }.
End User.
Abbreviation User := User.t.

(** The values a property of a request object or of a stored record can
    hold.  Numbers are integers, as everywhere here; [VRef] stands for
    an array, an object or a function, known by its reference. *)
Inductive value : Type :=
| VUndefined
| VNull
| VBool (b : bool)
| VNum (n : Z)
| VStr (s : string)
| VRef (r : positive).

#[global] Instance value_eq_dec : EqDecision value.
Proof. solve_decision. Defined.

(** A plain JavaScript object: its own properties and their values. *)
Abbreviation obj := (gmap string value).

(** The object [{ id, name, email }] of a user. *)
Definition to_obj (u : User) : obj :=
  {[ "id" := VNum (User.id u);
     "name" := VStr (User.name u);
     "email" := VStr (User.email u) ]}.

(** [class CreateUserDto { name: string; email: string }].  The class
    only declares properties: the service receives a plain object, which
    may carry others.  [mk] is the object that carries exactly the
    declared ones. *)
Module CreateUserDto.
Definition mk (name email : string) : obj :=
  {[ "name" := VStr name; "email" := VStr email ]}.
End CreateUserDto.

(** [class UpdateUserDto { name?: string; email?: string }]: [mk] is the
    object that carries the declared properties that are given and no
    other. *)
Module UpdateUserDto.
Definition mk (name email : option string) : obj :=
  let named : obj :=
    match name with
    | Some s => {[ "name" := VStr s ]}
    | None => ∅
    end in
  match email with
  | Some s => <["email" := VStr s]> named
  | None => named
  end.
End UpdateUserDto.

(** ** The array operations the service uses *)

Section Array.
Context {A : Type}.
Implicit Types (l : list A) (x : A) (i : Z).

(** [arr.push(x)] *)
Definition push l x : list A := l ++ [x].

(** [arr.find(p)]: the first element satisfying [p], or [undefined]. *)
Definition find (P : A → Prop) `{!∀ x, Decision (P x)} l : option A :=
  snd <$> list_find P l.

(** [arr.findIndex(p)]: the index of the first element satisfying [p],
    or [-1]. *)
Definition findIndex (P : A → Prop) `{!∀ x, Decision (P x)} l : Z :=
  match list_find P l with
  | Some (k, _) => Z.of_nat k
  | None => -1
  end.

(** [arr.splice(i, 1)]: a negative start counts from the end of the
    array, and nothing is removed at or beyond the length. *)
Definition splice1 i l : list A :=
  let len := Z.of_nat (length l) in
  let start := if bool_decide (i < 0) then Z.max (len + i) 0 else i in
  delete (Z.to_nat start) l.

(** [arr[i]]: [undefined] outside the array. *)
Definition get i l : option A :=
  if bool_decide (0 ≤ i) then l !! Z.to_nat i else None.

(** [arr[i] = x] for an index [0 <= i < arr.length], the only way the
    service uses it (see [findIndex_range]). *)
Definition set i x l : list A := <[Z.to_nat i := x]> l.

(** Whatever the array, the scan either stops at a first match, which
    splits the array around it, or finds no match at all. *)
Inductive scan (P : A → Prop) l : Prop :=
| scan_hit l1 x l2 :
    l = l1 ++ x :: l2 → Forall (λ y, ¬ P y) l1 → P x → scan P l
| scan_miss : Forall (λ y, ¬ P y) l → scan P l.
End Array.

(** ** Base variant: [src/users/user.service.ts] *)

Module Base.

Record UserService : Type := mkService { users : list User }.

(** [private users: User[] = []] *)
Definition init : UserService := {| users := [] |}.

Definition create (name email : string) (this : UserService)
  : User * UserService :=
  let user :=
    {| User.id := Z.of_nat (length (users this)) + 1;
       User.name := name; User.email := email |} in
  (user, {| users := push (users this) user |}).

Definition findAll (this : UserService) : list User := users this.

Definition findOne (id : Z) (this : UserService) : option User :=
  find (λ user, User.id user = id) (users this).

Definition update (id : Z) (name email : string) (this : UserService)
  : option User * UserService :=
  let userIndex := findIndex (λ user, User.id user = id) (users this) in
  if bool_decide (userIndex ≠ -1) then
    let users' :=
      set userIndex
        {| User.id := id; User.name := name; User.email := email |}
        (users this) in
    (get userIndex users', {| users := users' |})
  else (None, this).

Definition remove (id : Z) (this : UserService) : bool * UserService :=
  let userIndex := findIndex (λ user, User.id user = id) (users this) in
  if bool_decide (userIndex ≠ -1) then
    (true, {| users := splice1 userIndex (users this) |})
  else (false, this).

(** The calls a client can make, and the state each one leaves. *)
Inductive op : Type :=
| Create (name email : string)
| FindAll
| FindOne (id : Z)
| Update (id : Z) (name email : string)
| Remove (id : Z).

Definition step (o : op) (this : UserService) : UserService :=
  match o with
  | Create name email => (create name email this).2
  | FindAll | FindOne _ => this
  | Update id name email => (update id name email this).2
  | Remove id => (remove id this).2
  end.

Definition run (ops : list op) (this : UserService) : UserService :=
  foldl (λ s o, step o s) this ops.

Inductive reachable : UserService → Prop :=
| reachable_init : reachable init
| reachable_step o this : reachable this → reachable (step o this).

End Base.

(** ** DTO variant: the service of [readme2.md] *)

Module Dto.

Record UserService : Type :=
  mkService { users : list obj; idCounter : Z }.

(** [private users: User[] = []; private idCounter = 1] *)
Definition init : UserService := {| users := []; idCounter := 1 |}.

(** The first integer that a double cannot tell from its successor. *)
Definition two53 : Z := 2 ^ 53.

(** The value [idCounter] holds after [idCounter++], for the integers
    from 1 to 2^53 that the counter runs through. *)
Definition incr (n : Z) : Z := if bool_decide (n < two53) then n + 1 else n.

(** [{ id: this.idCounter++, ...createUserDto }]: the properties of the
    DTO are copied after [id] is set, so an [id] that the DTO carries
    replaces the counter's value. *)
Definition create (createUserDto : obj) (this : UserService)
  : obj * UserService :=
  let user : obj := createUserDto ∪ {[ "id" := VNum (idCounter this) ]} in
  (user, {| users := push (users this) user;
            idCounter := incr (idCounter this) |}).

Definition findAll (this : UserService) : list obj := users this.

(** [user.id === id] holds when the record has an [id] property whose
    value is the number [id]. *)
Definition findOne (id : Z) (this : UserService) : option obj :=
  find (λ user : obj, user !! "id" = Some (VNum id)) (users this).

(** [{ ...this.users[userIndex], ...updateUserDto }]: every property of
    the DTO, [id] included, replaces the one of the stored record.
    Spreading [undefined] copies nothing. *)
Definition update (id : Z) (updateUserDto : obj) (this : UserService)
  : option obj * UserService :=
  let userIndex :=
    findIndex (λ user : obj, user !! "id" = Some (VNum id)) (users this) in
  if bool_decide (userIndex ≠ -1) then
    let old : obj := default ∅ (get userIndex (users this)) in
    let users' := set userIndex (updateUserDto ∪ old) (users this) in
    (get userIndex users', {| users := users'; idCounter := idCounter this |})
  else (None, this).

Definition remove (id : Z) (this : UserService) : bool * UserService :=
  let userIndex :=
    findIndex (λ user : obj, user !! "id" = Some (VNum id)) (users this) in
  if bool_decide (userIndex ≠ -1) then
    (true, {| users := splice1 userIndex (users this);
              idCounter := idCounter this |})
  else (false, this).

Inductive op : Type :=
| Create (createUserDto : obj)
| FindAll
| FindOne (id : Z)
| Update (id : Z) (updateUserDto : obj)
| Remove (id : Z).

Definition step (o : op) (this : UserService) : UserService :=
  match o with
  | Create dto => (create dto this).2
  | FindAll | FindOne _ => this
  | Update id dto => (update id dto this).2
  | Remove id => (remove id this).2
  end.

Definition run (ops : list op) (this : UserService) : UserService :=
  foldl (λ s o, step o s) this ops.

Inductive reachable : UserService → Prop :=
| reachable_init : reachable init
| reachable_step o this : reachable this → reachable (step o this).

End Dto.

(** ** Derived notions used in the statements *)

(** The ids stored in an array of users, in sequence order. *)
Definition ids (l : list User) : list Z := User.id <$> l.

(** The same for the objects of the DTO variant: what each record holds
    under [id], if anything. *)
Definition oids (l : list obj) : list (option value) :=
  (λ user : obj, user !! "id") <$> l.

(** The number a record holds under [id] (0 when it holds none). *)
Definition nid (user : obj) : Z :=
  match user !! "id" with
  | Some (VNum n) => n
  | _ => 0
  end.

(** A DTO that carries no [id] property, as the DTO classes declare. *)
Definition plain (dto : obj) : Prop := dto !! "id" = None.

(** A call whose DTO, if it has one, carries no [id] property. *)
Definition plain_op (o : Dto.op) : Prop :=
  match o with
  | Dto.Create dto | Dto.Update _ dto => plain dto
  | _ => True
  end.

(** Creating the users of [inputs] one after the other; the records the
    calls return are collected in call order. *)
Fixpoint base_create_all (inputs : list (string * string))
    (this : Base.UserService) : list User * Base.UserService :=
  match inputs with
  | [] => ([], this)
  | (name, email) :: rest =>
      let r := Base.create name email this in
      let rs := base_create_all rest r.2 in
      (r.1 :: rs.1, rs.2)
  end.


(** The calls that draw an id from the counter. *)
Definition is_create (o : Dto.op) : bool :=
  match o with
  | Dto.Create _ => true
  | _ => false
  end.

(** The number of creates among the calls. *)
Definition creates (ops : list Dto.op) : Z :=
  Z.of_nat (length (filter is_create ops)).

(** What holds of the DTO variant after [c] creates, none of them beyond
    the 2^53-th, when no DTO carried an [id]: every record holds a number
    under [id], these numbers grow strictly along the sequence and none
    exceeds [c], and the counter stands at [c + 1], or at 2^53 once it
    got there. *)
Definition dto_inv (c : Z) (this : Dto.UserService) : Prop :=
  0 ≤ c ≤ Dto.two53 ∧
  Dto.idCounter this = Z.min (1 + c) Dto.two53 ∧
  Forall (λ user : obj, user !! "id" = Some (VNum (nid user))) (Dto.users this) ∧
  StronglySorted Z.lt (nid <$> Dto.users this) ∧
  Forall (λ i, 1 ≤ i ≤ c) (nid <$> Dto.users this).

(** As long as nothing was removed, the ids of the base variant are
    distinct and none exceeds the number of records, so [length + 1] is
    a fresh id. *)
Definition base_inv (this : Base.UserService) : Prop :=
  NoDup (ids (Base.users this)) ∧
  Forall (λ i, 1 ≤ i ≤ Z.of_nat (length (Base.users this)))
         (ids (Base.users this)).

Definition no_remove (o : Base.op) : Prop :=
  match o with
  | Base.Remove _ => False
  | _ => True
  end.

(** The calls of the base variant that add a record. *)
Definition is_base_create (o : Base.op) : bool :=
  match o with
  | Base.Create _ _ => true
  | _ => false
  end.

(** ** Facts about the array operations *)

Section ArrayFacts.
Context {A : Type} (P : A → Prop) `{!∀ x, Decision (P x)}.
Implicit Types (l : list A) (x : A).

Lemma list_find_first l1 x l2 :
  Forall (λ y, ¬ P y) l1 → P x →
  list_find P (l1 ++ x :: l2) = Some (length l1, x).
Proof.
  intros Hl1 Hx. apply list_find_Some. split_and!.
  - by apply list_lookup_middle.
  - done.
  - intros j y Hj Hlt. rewrite lookup_app_l in Hj by done.
    rewrite Forall_lookup in Hl1. by apply (Hl1 j).
Qed.

Lemma scan_total l : scan P l.
Proof.
  destruct (list_find P l) as [[k x]|] eqn:Hf.
  - apply list_find_Some in Hf as (Hk & Hx & Hleast).
    apply (scan_hit P l (take k l) x (drop (S k) l)); [| | done].
    + by rewrite <-(take_drop_middle l k x) at 1.
    + apply Forall_lookup. intros j y Hj.
      apply lookup_take_Some in Hj as [Hj Hlt]. eauto.
  - apply list_find_None in Hf. by apply scan_miss.
Qed.

Lemma find_hit l1 x l2 :
  Forall (λ y, ¬ P y) l1 → P x → find P (l1 ++ x :: l2) = Some x.
Proof. intros ??. unfold find. by rewrite list_find_first. Qed.

Lemma find_miss l : Forall (λ y, ¬ P y) l → find P l = None.
Proof.
  intros Hl. unfold find.
  assert (list_find P l = None) as ->; [by apply list_find_None|done].
Qed.

Lemma findIndex_hit l1 x l2 :
  Forall (λ y, ¬ P y) l1 → P x →
  findIndex P (l1 ++ x :: l2) = Z.of_nat (length l1).
Proof. intros ??. unfold findIndex. by rewrite list_find_first. Qed.

Lemma findIndex_miss l : Forall (λ y, ¬ P y) l → findIndex P l = -1.
Proof.
  intros Hl. unfold findIndex.
  assert (list_find P l = None) as ->; [by apply list_find_None|done].
Qed.

(** [findIndex] answers [-1] or an index inside the array, at which a
    matching element sits. *)
Lemma findIndex_range l :
  findIndex P l ≠ -1 →
  0 ≤ findIndex P l < Z.of_nat (length l) ∧
  ∃ x, get (findIndex P l) l = Some x ∧ P x.
Proof.
  destruct (scan_total l) as [l1 x l2 -> Hl1 Hx|Hl].
  - intros _. rewrite findIndex_hit by done. split.
    + rewrite length_app. simpl. lia.
    + exists x. unfold get. rewrite bool_decide_eq_true_2 by lia.
      rewrite Nat2Z.id. by rewrite list_lookup_middle.
  - by rewrite findIndex_miss.
Qed.

Lemma get_middle l1 x l2 : get (Z.of_nat (length l1)) (l1 ++ x :: l2) = Some x.
Proof.
  unfold get. rewrite bool_decide_eq_true_2 by lia.
  rewrite Nat2Z.id. by apply list_lookup_middle.
Qed.

Lemma set_middle l1 x y l2 :
  set (Z.of_nat (length l1)) y (l1 ++ x :: l2) = l1 ++ y :: l2.
Proof.
  unfold set. rewrite Nat2Z.id.
  rewrite insert_app_r_alt by done. by rewrite Nat.sub_diag.
Qed.

Lemma splice1_middle l1 x l2 :
  splice1 (Z.of_nat (length l1)) (l1 ++ x :: l2) = l1 ++ l2.
Proof.
  unfold splice1. rewrite bool_decide_eq_false_2 by lia.
  rewrite Nat2Z.id. apply delete_middle.
Qed.
End ArrayFacts.

(** ** Scanning an array piece by piece *)

Section FindFacts.
Context {A : Type} (P : A → Prop) `{!∀ x, Decision (P x)}.
Implicit Types (l : list A) (x : A).

Lemma find_cons x l :
  find P (x :: l) = if decide (P x) then Some x else find P l.
Proof.
  unfold find. simpl. case_decide; [done|].
  by destruct (list_find P l) as [[k y]|].
Qed.

Lemma find_app l1 l2 :
  find P (l1 ++ l2) =
  match find P l1 with
  | Some x => Some x
  | None => find P l2
  end.
Proof.
  induction l1 as [|x l1 IH]; [done|].
  rewrite <-app_comm_cons, !find_cons. by case_decide.
Qed.

Lemma find_Some_first l x :
  find P l = Some x ↔
  ∃ l1 l2, l = l1 ++ x :: l2 ∧ Forall (λ y, ¬ P y) l1 ∧ P x.
Proof.
  split.
  - destruct (scan_total P l) as [l1 y l2 -> Hl1 Hy|Hl].
    + rewrite find_hit by done. intros [= ->]. by exists l1, l2.
    + by rewrite find_miss.
  - intros (l1 & l2 & -> & Hl1 & Hx). by apply find_hit.
Qed.

Lemma find_None l : find P l = None ↔ Forall (λ y, ¬ P y) l.
Proof.
  split; [|apply find_miss].
  destruct (scan_total P l) as [l1 y l2 -> Hl1 Hy|Hl]; [|done].
  by rewrite find_hit.
Qed.
End FindFacts.

(** ** Ids and first matches *)

Lemma not_elem_of_ids (i : Z) (l : list User) :
  i ∉ ids l ↔ Forall (λ y, ¬ User.id y = i) l.
Proof.
  unfold ids. rewrite Forall_forall, list_elem_of_fmap. split.
  - intros Hn y Hy Hi. apply Hn. by exists y.
  - intros Hall (y & -> & Hy). by apply (Hall y).
Qed.

(** An id that occurs in the array has a first occurrence. *)
Lemma elem_of_ids_first (i : Z) (l : list User) :
  i ∈ ids l →
  ∃ l1 x l2, l = l1 ++ x :: l2 ∧ (i ∉ ids l1) ∧ User.id x = i.
Proof.
  intros Hin.
  destruct (scan_total (λ user, User.id user = i) l) as [l1 x l2 -> Hl1 Hx|Hl].
  - exists l1, x, l2. by rewrite not_elem_of_ids.
  - by apply not_elem_of_ids in Hl.
Qed.

Lemma ids_app (l1 l2 : list User) : ids (l1 ++ l2) = ids l1 ++ ids l2.
Proof. apply fmap_app. Qed.

Lemma ids_cons (x : User) (l : list User) : ids (x :: l) = User.id x :: ids l.
Proof. done. Qed.

(** ** Base variant: what each operation does on a hit and on a miss *)

Section BaseFacts.
Implicit Types (this : Base.UserService) (l : list User) (x : User) (id : Z).

Lemma base_findOne_hit id l1 x l2 :
  id ∉ ids l1 → User.id x = id →
  Base.findOne id (Base.mkService (l1 ++ x :: l2)) = Some x.
Proof.
  intros Hl1%not_elem_of_ids Hx. unfold Base.findOne. simpl.
  by apply find_hit.
Qed.

Lemma base_findOne_miss id this :
  id ∉ ids (Base.users this) → Base.findOne id this = None.
Proof. intros Hl%not_elem_of_ids. by apply find_miss. Qed.

Lemma base_update_hit id name email l1 x l2 :
  id ∉ ids l1 → User.id x = id →
  Base.update id name email (Base.mkService (l1 ++ x :: l2)) =
    (Some (User.mk id name email),
     Base.mkService (l1 ++ User.mk id name email :: l2)).
Proof.
  intros Hl1%not_elem_of_ids Hx. unfold Base.update. simpl.
  rewrite findIndex_hit by done.
  rewrite bool_decide_eq_true_2 by lia.
  by rewrite set_middle, get_middle.
Qed.

Lemma base_update_miss id name email this :
  id ∉ ids (Base.users this) → Base.update id name email this = (None, this).
Proof.
  intros Hl%not_elem_of_ids. unfold Base.update.
  rewrite findIndex_miss by done. by rewrite bool_decide_eq_false_2 by lia.
Qed.

Lemma base_remove_hit id l1 x l2 :
  id ∉ ids l1 → User.id x = id →
  Base.remove id (Base.mkService (l1 ++ x :: l2)) =
    (true, Base.mkService (l1 ++ l2)).
Proof.
  intros Hl1%not_elem_of_ids Hx. unfold Base.remove. simpl.
  rewrite findIndex_hit by done.
  rewrite bool_decide_eq_true_2 by lia.
  by rewrite splice1_middle.
Qed.

Lemma base_remove_miss id this :
  id ∉ ids (Base.users this) → Base.remove id this = (false, this).
Proof.
  intros Hl%not_elem_of_ids. unfold Base.remove.
  rewrite findIndex_miss by done. by rewrite bool_decide_eq_false_2 by lia.
Qed.

Lemma base_reachable_run ops : Base.reachable (Base.run ops Base.init).
Proof.
  unfold Base.run. induction ops as [|o ops IH] using rev_ind.
  - constructor.
  - rewrite foldl_app. simpl. by constructor.
Qed.
End BaseFacts.


(** ** The ids of the objects of the DTO variant *)

Lemma not_elem_of_oids (i : Z) (l : list obj) :
  Some (VNum i) ∉ oids l ↔ Forall (λ y : obj, ¬ y !! "id" = Some (VNum i)) l.
Proof.
  unfold oids. rewrite Forall_forall, list_elem_of_fmap. split.
  - intros Hn y Hy Hi. apply Hn. by exists y.
  - intros Hall (y & Hi & Hy). by apply (Hall y).
Qed.

Lemma elem_of_oids_first (i : Z) (l : list obj) :
  Some (VNum i) ∈ oids l →
  ∃ l1 x l2,
    l = l1 ++ x :: l2 ∧ (Some (VNum i) ∉ oids l1) ∧ x !! "id" = Some (VNum i).
Proof.
  intros Hin.
  destruct (scan_total (λ user : obj, user !! "id" = Some (VNum i)) l)
    as [l1 x l2 -> Hl1 Hx|Hl].
  - exists l1, x, l2. by rewrite not_elem_of_oids.
  - by apply not_elem_of_oids in Hl.
Qed.

Lemma oids_app (l1 l2 : list obj) : oids (l1 ++ l2) = oids l1 ++ oids l2.
Proof. apply fmap_app. Qed.

Lemma oids_cons (x : obj) (l : list obj) : oids (x :: l) = x !! "id" :: oids l.
Proof. done. Qed.

Lemma oids_length (l : list obj) : length (oids l) = length l.
Proof. apply length_fmap. Qed.

Lemma oids_cases (i : Z) (l : list obj) :
  Some (VNum i) ∉ oids l ∨
  ∃ l1 x l2,
    l = l1 ++ x :: l2 ∧ (Some (VNum i) ∉ oids l1) ∧ x !! "id" = Some (VNum i).
Proof.
  destruct (decide (Some (VNum i) ∈ oids l)) as [Hin|Hout]; [right|by left].
  by apply elem_of_oids_first.
Qed.

Lemma elem_of_oids_middle (l1 l2 : list obj) (x : obj) :
  x !! "id" ∈ oids (l1 ++ x :: l2).
Proof.
  rewrite oids_app, oids_cons. apply elem_of_app. right. apply list_elem_of_here.
Qed.

(** The record a spread builds holds under [id] what the DTO carries
    there, and what the older object held when the DTO carries none. *)
Lemma spread_id (dto old : obj) :
  (dto ∪ old) !! "id" =
  match dto !! "id" with
  | Some v => Some v
  | None => old !! "id"
  end.
Proof.
  rewrite lookup_union. destruct (dto !! "id"), (old !! "id"); done.
Qed.

Lemma spread_plain (dto old : obj) :
  plain dto → (dto ∪ old) !! "id" = old !! "id".
Proof. intros Hp. rewrite spread_id. unfold plain in Hp. by rewrite Hp. Qed.

(** ** DTO variant: what each operation does on a hit and on a miss *)

Section DtoFacts.
Implicit Types (this : Dto.UserService) (l : list obj) (x dto : obj) (id n : Z).

Lemma dto_findOne_hit id l1 x l2 n :
  Some (VNum id) ∉ oids l1 → x !! "id" = Some (VNum id) →
  Dto.findOne id (Dto.mkService (l1 ++ x :: l2) n) = Some x.
Proof.
  intros Hl1%not_elem_of_oids Hx. unfold Dto.findOne. simpl.
  by apply (find_hit (λ user : obj, user !! "id" = Some (VNum id))).
Qed.

Lemma dto_findOne_miss id this :
  Some (VNum id) ∉ oids (Dto.users this) → Dto.findOne id this = None.
Proof.
  intros Hl%not_elem_of_oids.
  by apply (find_miss (λ user : obj, user !! "id" = Some (VNum id))).
Qed.

Lemma dto_update_hit id dto l1 x l2 n :
  Some (VNum id) ∉ oids l1 → x !! "id" = Some (VNum id) →
  Dto.update id dto (Dto.mkService (l1 ++ x :: l2) n) =
    (Some (dto ∪ x), Dto.mkService (l1 ++ (dto ∪ x) :: l2) n).
Proof.
  intros Hl1%not_elem_of_oids Hx. unfold Dto.update. simpl.
  rewrite (findIndex_hit (λ user : obj, user !! "id" = Some (VNum id))) by done.
  rewrite bool_decide_eq_true_2 by lia.
  by rewrite get_middle, set_middle, get_middle.
Qed.

Lemma dto_update_miss id dto this :
  Some (VNum id) ∉ oids (Dto.users this) → Dto.update id dto this = (None, this).
Proof.
  intros Hl%not_elem_of_oids. unfold Dto.update.
  rewrite (findIndex_miss (λ user : obj, user !! "id" = Some (VNum id))) by done.
  by rewrite bool_decide_eq_false_2 by lia.
Qed.

Lemma dto_remove_hit id l1 x l2 n :
  Some (VNum id) ∉ oids l1 → x !! "id" = Some (VNum id) →
  Dto.remove id (Dto.mkService (l1 ++ x :: l2) n) =
    (true, Dto.mkService (l1 ++ l2) n).
Proof.
  intros Hl1%not_elem_of_oids Hx. unfold Dto.remove. simpl.
  rewrite (findIndex_hit (λ user : obj, user !! "id" = Some (VNum id))) by done.
  rewrite bool_decide_eq_true_2 by lia.
  by rewrite splice1_middle.
Qed.

Lemma dto_remove_miss id this :
  Some (VNum id) ∉ oids (Dto.users this) → Dto.remove id this = (false, this).
Proof.
  intros Hl%not_elem_of_oids. unfold Dto.remove.
  rewrite (findIndex_miss (λ user : obj, user !! "id" = Some (VNum id))) by done.
  by rewrite bool_decide_eq_false_2 by lia.
Qed.


Lemma dto_reachable_run_from ops this :
  Dto.reachable this → Dto.reachable (Dto.run ops this).
Proof.
  revert this. induction ops as [|o ops IH]; intros this Hr; simpl; [done|].
  apply IH. by constructor.
Qed.
End DtoFacts.

(** ** The scenario of the specification *)

(** C1. Alice, Bob, remove(1), Carol: the creates answer ids 1 and 2,
    the removal answers true, and the last create answers id 2 in the
    base variant, the id Bob still holds in the store, but id 3 in the
    DTO variant. *)
Theorem scenario_alice_bob_carol :
  let b1 := Base.create "Alice" "a@x.com" Base.init in
  let b2 := Base.create "Bob" "b@x.com" b1.2 in
  let b3 := Base.remove 1 b2.2 in
  let b4 := Base.create "Carol" "c@x.com" b3.2 in
  let d1 := Dto.create (CreateUserDto.mk "Alice" "a@x.com") Dto.init in
  let d2 := Dto.create (CreateUserDto.mk "Bob" "b@x.com") d1.2 in
  let d3 := Dto.remove 1 d2.2 in
  let d4 := Dto.create (CreateUserDto.mk "Carol" "c@x.com") d3.2 in
  (b1.1 = User.mk 1 "Alice" "a@x.com" ∧
   b2.1 = User.mk 2 "Bob" "b@x.com" ∧
   b3.1 = true ∧
   b4.1 = User.mk 2 "Carol" "c@x.com" ∧
   Base.findAll b3.2 = [b2.1] ∧
   Base.findAll b4.2 = [b2.1; b4.1] ∧
   User.id b4.1 = User.id b2.1) ∧
  (d1.1 = to_obj (User.mk 1 "Alice" "a@x.com") ∧
   d2.1 = to_obj (User.mk 2 "Bob" "b@x.com") ∧
   d3.1 = true ∧
   d4.1 = to_obj (User.mk 3 "Carol" "c@x.com") ∧
   Dto.findAll d4.2 = [d2.1; d4.1] ∧
   d4.1 !! "id" ∉ oids (Dto.findAll d3.2)).
Proof.
  cbv zeta. split.
  - by vm_compute.
  - split_and!; try by vm_compute.
    vm_compute. intros Hin. apply list_elem_of_singleton in Hin. discriminate.
Qed.

(** ** create *)

(** C3. Base variant: [create] gives the new record the id
    [length + 1], appends it at the end of the sequence and returns that
    very record; being a total function it answers on every store and
    every input. *)
Theorem base_create_appends (name email : string) (this : Base.UserService) :
  let r := Base.create name email this in
  r.1 = User.mk (Z.of_nat (length (Base.findAll this)) + 1) name email ∧
  Base.findAll r.2 = Base.findAll this ++ [r.1] ∧
  last (Base.findAll r.2) = Some r.1 ∧
  length (Base.findAll r.2) = S (length (Base.findAll this)).
Proof.
  cbv zeta. unfold Base.create, Base.findAll, push. simpl. split_and!.
  - done.
  - done.
  - apply last_snoc.
  - rewrite length_app. simpl. lia.
Qed.

Lemma base_create_all_run inputs this :
  (base_create_all inputs this).2 =
  Base.run ((λ p, Base.Create p.1 p.2) <$> inputs) this.
Proof.
  revert this. induction inputs as [|[name email] rest IH]; intros this.
  - done.
  - simpl. by rewrite IH.
Qed.

Lemma base_create_all_users inputs this :
  Base.users (base_create_all inputs this).2 =
  Base.users this ++ (base_create_all inputs this).1.
Proof.
  revert this. induction inputs as [|[name email] rest IH]; intros this.
  - simpl. by rewrite app_nil_r.
  - simpl. rewrite IH. simpl. unfold push. by rewrite <-app_assoc.
Qed.

Lemma base_create_all_returned inputs this :
  (base_create_all inputs this).1 =
  imap (λ k p, User.mk (Z.of_nat (length (Base.users this) + k) + 1) p.1 p.2)
       inputs.
Proof.
  revert this. induction inputs as [|[name email] rest IH]; intros this.
  - done.
  - simpl. rewrite IH. simpl. unfold push. rewrite length_app. simpl.
    rewrite Nat.add_0_r. f_equal. apply imap_ext. intros k [n e] _. simpl.
    do 2 f_equal. lia.
Qed.




Lemma two53_gt_1 : 1 < Dto.two53.
Proof. by vm_compute. Qed.



Lemma incr_ge (n : Z) : n ≤ Dto.incr n.
Proof. unfold Dto.incr. case_bool_decide; lia. Qed.


(** C9. From the empty store, after the creates of [inputs] and nothing
    else, [findAll] answers exactly the records those creates returned,
    in call order: as many records as calls, carrying the names and
    emails of the calls in order, with ids 1, 2, ..., n. *)
Theorem findAll_after_creates (inputs : list (string * string)) :
  let r := base_create_all inputs Base.init in
  r.2 = Base.run ((λ p, Base.Create p.1 p.2) <$> inputs) Base.init ∧
  Base.findAll r.2 = r.1 ∧
  length (Base.findAll r.2) = length inputs ∧
  (λ u, (User.name u, User.email u)) <$> Base.findAll r.2 = inputs ∧
  ids (Base.findAll r.2) = seqZ 1 (Z.of_nat (length inputs)).
Proof.
  cbv zeta.
  assert (Base.findAll (base_create_all inputs Base.init).2 =
          (base_create_all inputs Base.init).1) as Hall.
  { unfold Base.findAll. by rewrite base_create_all_users. }
  split; [apply base_create_all_run|]. split; [done|].
  rewrite Hall, base_create_all_returned. simpl. split_and!.
  - by rewrite length_imap.
  - rewrite fmap_imap. rewrite <-(list_fmap_id inputs) at 2.
    rewrite <-imap_const. apply imap_ext. by intros k [n e] _.
  - unfold ids. rewrite fmap_imap. apply list_eq. intros k.
    rewrite list_lookup_imap.
    destruct (inputs !! k) as [p|] eqn:Hk; simpl; symmetry.
    + apply lookup_lt_Some in Hk. apply lookup_seqZ. lia.
    + apply lookup_ge_None in Hk. apply lookup_seqZ_ge. lia.
Qed.




(** ** Missing ids *)

(** C5. When no stored record has the id, [findOne] answers the absent
    value, and [update] answers the absent value and hands back the very
    same store, in the base variant and in the DTO variant alike. Both
    are total functions: nothing is raised. *)
Theorem missing_id_is_absent (id : Z) :
  (∀ users : list User,
     id ∉ ids users →
     Base.findOne id (Base.mkService users) = None ∧
     ∀ name email,
       Base.update id name email (Base.mkService users) =
         (None, Base.mkService users)) ∧
  (∀ (users : list obj) (n : Z),
     Some (VNum id) ∉ oids users →
     Dto.findOne id (Dto.mkService users n) = None ∧
     ∀ dto, Dto.update id dto (Dto.mkService users n) =
              (None, Dto.mkService users n)).
Proof.
  split; [intros users Hid; split|intros users n Hid; split].
  - by apply base_findOne_miss.
  - intros name email. by apply base_update_miss.
  - by apply dto_findOne_miss.
  - intros dto. by apply dto_update_miss.
Qed.

Lemma missing_id_is_absent_witness :
  let users := [User.mk 1 "Alice" "a@x.com"; User.mk 2 "Bob" "b@x.com"] in
  Base.findOne 7 (Base.mkService users) = None ∧
  Base.update 7 "Zed" "z@x.com" (Base.mkService users) =
    (None, Base.mkService users) ∧
  Dto.findOne 7 (Dto.mkService (to_obj <$> users) 3) = None ∧
  Dto.update 7 (UpdateUserDto.mk (Some "Zed") None)
      (Dto.mkService (to_obj <$> users) 3) =
    (None, Dto.mkService (to_obj <$> users) 3).
Proof.
  intros users.
  assert (7 ∉ ids users) as Hid.
  { apply not_elem_of_ids. by repeat constructor. }
  assert (Some (VNum 7) ∉ oids (to_obj <$> users)) as Hoid.
  { apply not_elem_of_oids. by repeat constructor. }
  destruct (missing_id_is_absent 7) as [Hb Hd].
  destruct (Hb users Hid) as [Hf Hu].
  destruct (Hd (to_obj <$> users) 3 Hoid) as [Hdf Hdu].
  split; [exact Hf|]. split; [apply Hu|]. split; [exact Hdf|apply Hdu].
Defined.

(** ** update *)

(** C6. Base variant: when some stored record has the id, [update]
    puts [{id, name, email}] in the place of the first such record, at
    the same position, and returns that new record; the records at all
    other positions, and the number of records, are as before. *)
Theorem base_update_in_place (id : Z) (name email : string)
    (this : Base.UserService) :
  id ∈ ids (Base.users this) →
  ∃ (k : nat) (old : User),
    Base.users this !! k = Some old ∧ User.id old = id ∧
    (∀ j y, (j < k)%nat → Base.users this !! j = Some y → User.id y ≠ id) ∧
    let r := Base.update id name email this in
    r.1 = Some (User.mk id name email) ∧
    Base.users r.2 !! k = Some (User.mk id name email) ∧
    (∀ j, j ≠ k → Base.users r.2 !! j = Base.users this !! j) ∧
    length (Base.users r.2) = length (Base.users this).
Proof.
  destruct this as [l]. simpl. intros Hin.
  destruct (elem_of_ids_first id l Hin) as (l1 & x & l2 & -> & Hl1 & Hx).
  exists (length l1), x. cbv zeta.
  rewrite base_update_hit by done. simpl. split_and!.
  - by apply list_lookup_middle.
  - done.
  - intros j y Hj Hy. rewrite lookup_app_l in Hy by done.
    intros Hid. apply Hl1. unfold ids. apply list_elem_of_fmap.
    exists y. split; [done|]. by eapply list_elem_of_lookup_2.
  - done.
  - by apply list_lookup_middle.
  - intros j Hj. destruct (decide (j < length l1)%nat).
    + by rewrite !lookup_app_l by done.
    + rewrite !lookup_app_r by lia.
      destruct (j - length l1)%nat as [|m] eqn:Hm; [lia|done].
  - rewrite !length_app. simpl. lia.
Qed.

Lemma base_update_in_place_witness :
  let this :=
    Base.mkService [User.mk 1 "Alice" "a@x.com"; User.mk 2 "Bob" "b@x.com";
                    User.mk 3 "Carol" "c@x.com"] in
  2 ∈ ids (Base.users this) ∧
  ∃ (k : nat) (old : User),
    Base.users this !! k = Some old ∧ User.id old = 2 ∧
    (∀ j y, (j < k)%nat → Base.users this !! j = Some y → User.id y ≠ 2) ∧
    let r := Base.update 2 "Robert" "r@x.com" this in
    r.1 = Some (User.mk 2 "Robert" "r@x.com") ∧
    Base.users r.2 !! k = Some (User.mk 2 "Robert" "r@x.com") ∧
    (∀ j, j ≠ k → Base.users r.2 !! j = Base.users this !! j) ∧
    length (Base.users r.2) = length (Base.users this).
Proof.
  intros this.
  assert (2 ∈ ids (Base.users this)) as Hin.
  { simpl. apply list_elem_of_further, list_elem_of_here. }
  split; [exact Hin|].
  exact (base_update_in_place 2 "Robert" "r@x.com" this Hin).
Defined.

(** C7. DTO variant: when some stored record has the id, [update]
    merges the DTO into the first such record property by property (a
    property the DTO carries takes the DTO's value, whatever it is, a
    property it omits keeps the value the record had), leaves the merged
    record at the same position and returns it. *)
Theorem dto_update_merges (id : Z) (dto : obj) (this : Dto.UserService) :
  Some (VNum id) ∈ oids (Dto.users this) →
  ∃ (k : nat) (old new : obj),
    Dto.users this !! k = Some old ∧ old !! "id" = Some (VNum id) ∧
    (∀ j y, (j < k)%nat → Dto.users this !! j = Some y →
            y !! "id" ≠ Some (VNum id)) ∧
    (∀ key : string,
       new !! key = match dto !! key with
                    | Some v => Some v
                    | None => old !! key
                    end) ∧
    let r := Dto.update id dto this in
    r.1 = Some new ∧
    Dto.users r.2 = <[k := new]> (Dto.users this) ∧
    Dto.users r.2 !! k = Some new ∧
    (∀ j, j ≠ k → Dto.users r.2 !! j = Dto.users this !! j) ∧
    length (Dto.users r.2) = length (Dto.users this) ∧
    Dto.idCounter r.2 = Dto.idCounter this.
Proof.
  destruct this as [l n]. simpl. intros Hin.
  destruct (elem_of_oids_first id l Hin) as (l1 & x & l2 & -> & Hl1 & Hx).
  exists (length l1), x, (dto ∪ x). cbv zeta.
  rewrite dto_update_hit by done. simpl. split_and!.
  - by apply list_lookup_middle.
  - done.
  - intros j y Hj Hy. rewrite lookup_app_l in Hy by done.
    intros Hid. apply Hl1. unfold oids. apply list_elem_of_fmap.
    exists y. split; [done|]. by eapply list_elem_of_lookup_2.
  - intros key. rewrite lookup_union.
    by destruct (dto !! key), (x !! key).
  - done.
  - rewrite insert_app_r_alt by done. by rewrite Nat.sub_diag.
  - by apply list_lookup_middle.
  - intros j Hj. destruct (decide (j < length l1)%nat).
    + by rewrite !lookup_app_l by done.
    + rewrite !lookup_app_r by lia.
      destruct (j - length l1)%nat as [|m] eqn:Hm; [lia|done].
  - rewrite !length_app. simpl. lia.
  - done.
Qed.

Lemma dto_update_merges_witness :
  let alice := to_obj (User.mk 1 "Alice" "a@x.com") in
  let bob := to_obj (User.mk 2 "Bob" "b@x.com") in
  let this := Dto.mkService [alice; bob] 3 in
  let dto : obj := {[ "email" := VStr "bob@y.org"; "name" := VUndefined ]} in
  Some (VNum 2) ∈ oids (Dto.users this) ∧
  Dto.update 2 (UpdateUserDto.mk None (Some "bob@y.org")) this =
    (Some (to_obj (User.mk 2 "Bob" "bob@y.org")),
     Dto.mkService [alice; to_obj (User.mk 2 "Bob" "bob@y.org")] 3) ∧
  Dto.update 2 dto this =
    (Some {[ "id" := VNum 2; "name" := VUndefined;
             "email" := VStr "bob@y.org" ]},
     Dto.mkService
       [alice; {[ "id" := VNum 2; "name" := VUndefined;
                  "email" := VStr "bob@y.org" ]}] 3) ∧
  ∃ (k : nat) (old new : obj),
    Dto.users this !! k = Some old ∧ old !! "id" = Some (VNum 2) ∧
    (∀ j y, (j < k)%nat → Dto.users this !! j = Some y →
            y !! "id" ≠ Some (VNum 2)) ∧
    (∀ key : string,
       new !! key = match dto !! key with
                    | Some v => Some v
                    | None => old !! key
                    end) ∧
    let r := Dto.update 2 dto this in
    r.1 = Some new ∧
    Dto.users r.2 = <[k := new]> (Dto.users this) ∧
    Dto.users r.2 !! k = Some new ∧
    (∀ j, j ≠ k → Dto.users r.2 !! j = Dto.users this !! j) ∧
    length (Dto.users r.2) = length (Dto.users this) ∧
    Dto.idCounter r.2 = Dto.idCounter this.
Proof.
  intros alice bob this dto.
  assert (Some (VNum 2) ∈ oids (Dto.users this)) as Hin.
  { apply list_elem_of_further, list_elem_of_here. }
  split; [exact Hin|]. split; [by vm_compute|]. split; [by vm_compute|].
  exact (dto_update_merges 2 dto this Hin).
Defined.

(** ** Stores in which an id occurs more than once *)

(** Such a store is reachable in the base variant: remove the first of
    two users and create a third. *)
Lemma base_duplicate_ids_reachable :
  Base.reachable
    (Base.mkService [User.mk 2 "Bob" "b@x.com"; User.mk 2 "Carol" "c@x.com"]).
Proof.
  apply (base_reachable_run
           [Base.Create "Alice" "a@x.com"; Base.Create "Bob" "b@x.com";
            Base.Remove 1; Base.Create "Carol" "c@x.com"]).
Qed.

(** C10. Base variant: whatever follows the first record with the id in
    the sequence, in particular further records with the same id,
    [findOne] answers that first record, [update] replaces it alone and
    [remove] deletes it alone; the records before it and all the records
    after it stay in the store as they were. *)
Theorem base_first_match_only (id : Z) (l1 l2 : list User) (x : User) :
  id ∉ ids l1 → User.id x = id →
  let this := Base.mkService (l1 ++ x :: l2) in
  Base.findOne id this = Some x ∧
  (∀ name email,
     Base.update id name email this =
       (Some (User.mk id name email),
        Base.mkService (l1 ++ User.mk id name email :: l2))) ∧
  Base.remove id this = (true, Base.mkService (l1 ++ l2)).
Proof.
  intros Hl1 Hx this. subst this. split_and!.
  - by apply base_findOne_hit.
  - intros name email. by apply base_update_hit.
  - by apply base_remove_hit.
Qed.

Lemma base_first_match_only_witness :
  let bob := User.mk 2 "Bob" "b@x.com" in
  let carol := User.mk 2 "Carol" "c@x.com" in
  let this := Base.mkService [bob; carol] in
  Base.reachable this ∧
  Base.findOne 2 this = Some bob ∧
  Base.update 2 "Dave" "d@x.com" this =
    (Some (User.mk 2 "Dave" "d@x.com"),
     Base.mkService [User.mk 2 "Dave" "d@x.com"; carol]) ∧
  Base.remove 2 this = (true, Base.mkService [carol]).
Proof.
  intros bob carol this. split; [apply base_duplicate_ids_reachable|].
  assert (2 ∉ ids []) as Hnil by (by apply not_elem_of_nil).
  destruct (base_first_match_only 2 [] [carol] bob Hnil eq_refl)
    as (Hf & Hu & Hr).
  split; [exact Hf|]. split; [apply Hu|exact Hr].
Defined.

Lemma StronglySorted_sublist {A} (R : relation A) (l k : list A) :
  l `sublist_of` k → StronglySorted R k → StronglySorted R l.
Proof.
  induction 1 as [|x l k Hsub IH|x l k Hsub IH];
    rewrite ?StronglySorted_cons; [done| |].
  - intros [Hall Hs]. split; [|by apply IH].
    rewrite Forall_forall in Hall |- *. intros y Hy. apply Hall.
    by apply (sublist_subseteq _ _ Hsub).
  - intros [_ Hs]. by apply IH.
Qed.

(** ** The id counter of the DTO variant *)

Lemma ids_cases (id : Z) (l : list User) :
  id ∉ ids l ∨ ∃ l1 x l2, l = l1 ++ x :: l2 ∧ (id ∉ ids l1) ∧ User.id x = id.
Proof.
  destruct (decide (id ∈ ids l)) as [Hin|Hout]; [right|by left].
  by apply elem_of_ids_first.
Qed.

Lemma dto_update_counter id dto this :
  Dto.idCounter (Dto.update id dto this).2 = Dto.idCounter this.
Proof. unfold Dto.update. by case_bool_decide. Qed.

Lemma dto_remove_counter id this :
  Dto.idCounter (Dto.remove id this).2 = Dto.idCounter this.
Proof. unfold Dto.remove. by case_bool_decide. Qed.

Lemma dto_update_length id dto this :
  length (Dto.users (Dto.update id dto this).2) = length (Dto.users this).
Proof.
  destruct this as [l n]. simpl.
  destruct (oids_cases id l) as [Hout|(l1 & x & l2 & -> & Hl1 & Hx)].
  - by rewrite dto_update_miss.
  - rewrite dto_update_hit by done. simpl. by rewrite !length_app.
Qed.

(** An update whose DTO carries no [id] leaves every record's [id]
    property as it was. *)
Lemma dto_update_plain_oids id dto this :
  plain dto →
  oids (Dto.users (Dto.update id dto this).2) = oids (Dto.users this).
Proof.
  intros Hp. destruct this as [l n]. simpl.
  destruct (oids_cases id l) as [Hout|(l1 & x & l2 & -> & Hl1 & Hx)].
  - by rewrite dto_update_miss.
  - rewrite dto_update_hit by done. simpl.
    rewrite !oids_app, !oids_cons. by rewrite spread_plain.
Qed.

Lemma dto_remove_sublist id this :
  Dto.users (Dto.remove id this).2 `sublist_of` Dto.users this.
Proof.
  destruct this as [l n]. simpl.
  destruct (oids_cases id l) as [Hout|(l1 & x & l2 & -> & Hl1 & Hx)].
  - by rewrite dto_remove_miss.
  - rewrite dto_remove_hit by done. simpl.
    apply sublist_app; [done|]. by apply sublist_cons.
Qed.

Lemma dto_counter_step o this :
  Dto.idCounter this ≤ Dto.idCounter (Dto.step o this).
Proof.
  destruct o as [dto| |id|id dto|id]; simpl; try lia.
  - apply incr_ge.
  - by rewrite dto_update_counter.
  - by rewrite dto_remove_counter.
Qed.

Lemma dto_counter_run ops this :
  Dto.idCounter this ≤ Dto.idCounter (Dto.run ops this).
Proof.
  revert this. induction ops as [|o ops IH]; intros this; simpl; [done|].
  etrans; [apply (dto_counter_step o)|apply IH].
Qed.

Lemma creates_nil : creates [] = 0.
Proof. done. Qed.

Lemma creates_cons o ops :
  creates (o :: ops) = (if is_create o then 1 else 0) + creates ops.
Proof.
  unfold creates. destruct o as [dto| |id|id dto|id]; simpl;
    rewrite 1?filter_cons_True by done;
    rewrite 1?filter_cons_False by (by intros []); simpl; lia.
Qed.


Lemma creates_nonneg ops : 0 ≤ creates ops.
Proof. unfold creates. lia. Qed.

Lemma incr_min (c : Z) :
  Dto.incr (Z.min (1 + c) Dto.two53) = Z.min (1 + (c + 1)) Dto.two53.
Proof. unfold Dto.incr. case_bool_decide; lia. Qed.

(** The counter counts the creates until it reaches 2^53, where it
    stays: after a run it stands at one more than the number of
    [Create] calls so far, or at 2^53 if that is smaller. *)
Lemma dto_counter_counts ops this c :
  Dto.idCounter this = Z.min (1 + c) Dto.two53 →
  Dto.idCounter (Dto.run ops this) = Z.min (1 + (c + creates ops)) Dto.two53.
Proof.
  revert this c. induction ops as [|o ops IH]; intros this c Hc.
  - rewrite creates_nil, Z.add_0_r. done.
  - change (Dto.run (o :: ops) this) with (Dto.run ops (Dto.step o this)).
    rewrite creates_cons.
    rewrite (IH _ (c + if is_create o then 1 else 0)); [f_equal; lia|].
    destruct o as [dto| |id|id dto|id]; simpl; rewrite ?Z.add_0_r; try done.
    + rewrite Hc. apply incr_min.
    + by rewrite dto_update_counter.
    + by rewrite dto_remove_counter.
Qed.

Lemma dto_inv_init : dto_inv 0 Dto.init.
Proof.
  pose proof two53_gt_1. unfold dto_inv. simpl.
  split_and!; [lia|lia|lia|constructor..].
Qed.

Lemma dto_inv_step o this c :
  dto_inv c this → plain_op o →
  c + (if is_create o then 1 else 0) ≤ Dto.two53 →
  dto_inv (c + if is_create o then 1 else 0) (Dto.step o this).
Proof.
  intros ([Hc0 Hc1] & Hcnt & Hnum & Hsort & Hle) Hplain Hbound.
  destruct o as [dto| |id|id dto|id]; simpl in *;
    rewrite ?Z.add_0_r; try done.
  - assert ((dto ∪ {["id" := VNum (Dto.idCounter this)]} : obj) !! "id"
            = Some (VNum (1 + c))) as Hid.
    { rewrite spread_plain by done. rewrite lookup_singleton_eq.
      rewrite Hcnt. do 2 f_equal. lia. }
    assert (nid (dto ∪ {["id" := VNum (Dto.idCounter this)]}) = 1 + c) as Hnid.
    { unfold nid. by rewrite Hid. }
    unfold dto_inv, push. simpl. rewrite fmap_app. simpl. rewrite Hnid.
    split_and!.
    + lia.
    + lia.
    + rewrite Hcnt. apply incr_min.
    + apply Forall_app. split; [done|]. apply Forall_singleton.
      by rewrite Hnid.
    + apply StronglySorted_app_2; [|done|repeat constructor].
      intros i j Hi ->%list_elem_of_singleton.
      rewrite Forall_forall in Hle. specialize (Hle _ Hi). lia.
    + apply Forall_app. split.
      * eapply Forall_impl; [exact Hle|]. simpl. lia.
      * apply Forall_singleton. lia.
  - destruct this as [l n]. simpl in *.
    destruct (oids_cases id l) as [Hout|(l1 & x & l2 & -> & Hl1 & Hx)].
    + rewrite dto_update_miss by done. by unfold dto_inv.
    + rewrite dto_update_hit by done. unfold dto_inv. simpl.
      assert (nid (dto ∪ x) = nid x) as Hnid.
      { unfold nid. by rewrite spread_plain. }
      rewrite fmap_app, fmap_cons, Hnid.
      rewrite fmap_app, fmap_cons in Hsort, Hle.
      split_and!; try done.
      apply Forall_app in Hnum as [Hn1 [Hnx Hn2]%Forall_cons].
      apply Forall_app. split; [done|]. apply Forall_cons. split; [|done].
      rewrite Hnid. by rewrite spread_plain.
  - pose proof (dto_remove_sublist id this) as Hsub.
    unfold dto_inv. rewrite dto_remove_counter. split_and!; try done.
    + rewrite Forall_forall in Hnum |- *. intros y Hy. apply Hnum.
      by apply (sublist_subseteq _ _ Hsub).
    + eapply StronglySorted_sublist; [|exact Hsort]. by apply fmap_sublist.
    + rewrite Forall_forall in Hle |- *. intros y Hy. apply Hle.
      eapply sublist_subseteq; [|exact Hy]. by apply fmap_sublist.
Qed.

Lemma dto_inv_run_from ops this c :
  dto_inv c this → Forall plain_op ops → c + creates ops ≤ Dto.two53 →
  dto_inv (c + creates ops) (Dto.run ops this).
Proof.
  intros Hinv Hplain. revert this c Hinv.
  induction Hplain as [|o ops Ho _ IH]; intros this c Hinv Hbound.
  - by rewrite creates_nil, Z.add_0_r.
  - change (Dto.run (o :: ops) this) with (Dto.run ops (Dto.step o this)).
    rewrite creates_cons in Hbound |- *. pose proof (creates_nonneg ops).
    rewrite Z.add_assoc. apply IH; [|lia].
    apply dto_inv_step; [done|done|lia].
Qed.

Lemma dto_inv_run ops :
  Forall plain_op ops → creates ops ≤ Dto.two53 →
  dto_inv (creates ops) (Dto.run ops Dto.init).
Proof.
  intros Hplain Hbound.
  apply (dto_inv_run_from ops Dto.init 0 dto_inv_init Hplain). lia.
Qed.

(** When every record holds a number under [id], the ids are those
    numbers. *)
Lemma oids_nid (l : list obj) :
  Forall (λ user : obj, user !! "id" = Some (VNum (nid user))) l →
  oids l = (λ i, Some (VNum i)) <$> (nid <$> l).
Proof.
  induction 1 as [|x l Hx _ IH]; [done|].
  rewrite oids_cons, !fmap_cons. by rewrite Hx, IH.
Qed.

Lemma StronglySorted_lt_NoDup (l : list Z) : StronglySorted Z.lt l → NoDup l.
Proof.
  induction 1 as [|x l _ IH Hall]; constructor; [|done].
  intros Hin. rewrite Forall_forall in Hall. specialize (Hall _ Hin). lia.
Qed.

Lemma dto_inv_NoDup c this : dto_inv c this → NoDup (oids (Dto.users this)).
Proof.
  intros (_ & _ & Hnum & Hsort & _). rewrite (oids_nid _ Hnum).
  apply NoDup_fmap_2; [by intros i j [= ->]|].
  by apply StronglySorted_lt_NoDup.
Qed.

Lemma dto_inv_fresh c this i :
  dto_inv c this → c < i → Some (VNum i) ∉ oids (Dto.users this).
Proof.
  intros (_ & _ & Hnum & _ & Hle) Hlt. rewrite (oids_nid _ Hnum).
  intros (j & [= ->] & Hj)%list_elem_of_fmap.
  rewrite Forall_forall in Hle. specialize (Hle _ Hj). lia.
Qed.

(** In the DTO variant, as long as no DTO carried an [id] and the
    counter is below 2^53, the id a create hands out is the number of
    creates so far plus one, and it is not in the store. *)
Lemma dto_create_fresh ops dto :
  Forall plain_op ops → plain dto → creates ops < Dto.two53 →
  let this := Dto.run ops Dto.init in
  let r := Dto.create dto this in
  r.1 !! "id" = Some (VNum (1 + creates ops)) ∧
  (r.1 !! "id" ∉ oids (Dto.users this)) ∧
  dto_inv (creates ops + 1) r.2.
Proof.
  intros Hplain Hdto Hbound this r.
  assert (dto_inv (creates ops) this) as Hinv by (apply dto_inv_run; [done|lia]).
  assert (r.1 !! "id" = Some (VNum (1 + creates ops))) as Hid.
  { subst r. simpl. rewrite spread_plain by done.
    rewrite lookup_singleton_eq. destruct Hinv as (_ & -> & _).
    do 2 f_equal. lia. }
  split_and!; [done| |].
  - rewrite Hid. eapply dto_inv_fresh; [exact Hinv|lia].
  - apply (dto_inv_step (Dto.Create dto) this (creates ops)); [done|done|].
    simpl. lia.
Qed.







(** ** Fresh ids in the base variant *)

Lemma base_update_ids id name email this :
  ids (Base.users (Base.update id name email this).2) = ids (Base.users this) ∧
  length (Base.users (Base.update id name email this).2) =
    length (Base.users this).
Proof.
  destruct this as [l]. simpl.
  destruct (ids_cases id l) as [Hout|(l1 & x & l2 & -> & Hl1 & Hx)].
  - by rewrite base_update_miss.
  - rewrite base_update_hit by done. simpl.
    rewrite !ids_app, !ids_cons, !length_app. simpl. by rewrite Hx.
Qed.

Lemma base_inv_step o this :
  no_remove o → base_inv this → base_inv (Base.step o this).
Proof.
  intros Ho [Hnd Hle]. destruct o as [name email| |id|id name email|id];
    simpl; try done.
  - unfold base_inv. simpl. unfold push.
    rewrite ids_app, length_app. simpl. split.
    + apply NoDup_app. split_and!; [done| |apply NoDup_singleton].
      intros i Hi ->%list_elem_of_singleton.
      rewrite Forall_forall in Hle. specialize (Hle _ Hi). lia.
    + apply Forall_app. split.
      * eapply Forall_impl; [exact Hle|]. simpl. lia.
      * apply Forall_singleton. lia.
  - destruct (base_update_ids id name email this) as [Hids Hlen].
    unfold base_inv. by rewrite Hids, Hlen.
Qed.

Lemma base_inv_run ops this :
  Forall no_remove ops → base_inv this → base_inv (Base.run ops this).
Proof.
  intros Hops. revert this.
  induction Hops as [|o ops Ho _ IH]; intros this Hinv; simpl; [done|].
  apply IH. by apply base_inv_step.
Qed.

Lemma base_create_fresh_without_remove ops name email :
  Forall no_remove ops →
  let this := Base.run ops Base.init in
  User.id (Base.create name email this).1 ∉ ids (Base.users this).
Proof.
  intros Hops this Hin.
  assert (base_inv this) as [_ Hle].
  { apply base_inv_run; [done|]. split; simpl; constructor. }
  rewrite Forall_forall in Hle. specialize (Hle _ Hin). simpl in Hle. lia.
Qed.

(** C2. Freshness of the id that [create] hands out.  The DTO variant
    has it for DTOs that carry no [id] while the counter is below 2^53
    ([dto_create_fresh]), and the base variant has it as long as no
    record was removed ([base_create_fresh_without_remove]).  After a
    removal the base variant loses it: in the store reached by creating Alice and Bob and
    removing id 1, [create] hands out id 2, which Bob still holds, and
    the store then carries the id 2 twice. *)
Theorem base_create_reuses_id :
  let this :=
    Base.run [Base.Create "Alice" "a@x.com"; Base.Create "Bob" "b@x.com";
              Base.Remove 1] Base.init in
  let r := Base.create "Carol" "c@x.com" this in
  Base.reachable this ∧
  Base.findAll this = [User.mk 2 "Bob" "b@x.com"] ∧
  r.1 = User.mk 2 "Carol" "c@x.com" ∧
  User.id r.1 ∈ ids (Base.users this) ∧
  ¬ NoDup (ids (Base.users r.2)).
Proof.
  intros this r. split_and!.
  - apply base_reachable_run.
  - reflexivity.
  - reflexivity.
  - apply list_elem_of_here.
  - intros Hnd. vm_compute in Hnd. apply NoDup_cons in Hnd as [Hn _].
    apply Hn, list_elem_of_here.
Qed.

(** ** remove *)

(** In a store whose ids are pairwise distinct, removing a present id
    answers true, leaves one record less, and the id is gone. *)
Lemma remove_present_distinct (id : Z) (users : list User) :
  NoDup (ids users) → id ∈ ids users →
  ∃ users',
    length users = S (length users') ∧
    (id ∉ ids users') ∧
    Base.remove id (Base.mkService users) = (true, Base.mkService users') ∧
    Base.findOne id (Base.mkService users') = None.
Proof.
  intros Hnd Hin.
  destruct (elem_of_ids_first id users Hin) as (l1 & x & l2 & -> & Hl1 & Hx).
  assert (id ∉ ids (l1 ++ l2)) as Hgone.
  { rewrite ids_app, ids_cons, Hx in Hnd.
    apply NoDup_app in Hnd as (_ & _ & [Hl2 _]%NoDup_cons).
    rewrite ids_app, elem_of_app. tauto. }
  exists (l1 ++ l2). split_and!.
  - rewrite !length_app. simpl. lia.
  - done.
  - by apply base_remove_hit.
  - by apply base_findOne_miss.
Qed.

Lemma dto_remove_present_distinct (id : Z) (users : list obj) (n : Z) :
  NoDup (oids users) → Some (VNum id) ∈ oids users →
  ∃ users',
    length users = S (length users') ∧
    (Some (VNum id) ∉ oids users') ∧
    Dto.remove id (Dto.mkService users n) = (true, Dto.mkService users' n) ∧
    Dto.findOne id (Dto.mkService users' n) = None.
Proof.
  intros Hnd Hin.
  destruct (elem_of_oids_first id users Hin) as (l1 & x & l2 & -> & Hl1 & Hx).
  assert (Some (VNum id) ∉ oids (l1 ++ l2)) as Hgone.
  { rewrite oids_app, oids_cons, Hx in Hnd.
    apply NoDup_app in Hnd as (_ & _ & [Hl2 _]%NoDup_cons).
    rewrite oids_app, elem_of_app. tauto. }
  exists (l1 ++ l2). split_and!.
  - rewrite !length_app. simpl. lia.
  - done.
  - by apply dto_remove_hit.
  - by apply dto_findOne_miss.
Qed.

(** So it is in the stores the DTO variant reaches while no DTO carries
    an [id] and the counter is below 2^53. *)
Lemma dto_remove_present (ops : list Dto.op) (id : Z) :
  Forall plain_op ops → creates ops ≤ Dto.two53 →
  let this := Dto.run ops Dto.init in
  Some (VNum id) ∈ oids (Dto.users this) →
  let r := Dto.remove id this in
  r.1 = true ∧
  length (Dto.users this) = S (length (Dto.users r.2)) ∧
  Dto.findOne id r.2 = None.
Proof.
  intros Hplain Hbound this Hin r. subst r.
  pose proof (dto_inv_NoDup _ _ (dto_inv_run ops Hplain Hbound)) as Hnd.
  fold this in Hnd. destruct this as [l n]. simpl in *.
  destruct (dto_remove_present_distinct id l n Hnd Hin)
    as (l' & Hlen & _ & -> & Hfind). by simpl.
Qed.

(** Removing an id that no record has answers false and hands back the
    very same store. *)
Lemma remove_absent (id : Z) :
  (∀ users : list User,
     id ∉ ids users →
     Base.remove id (Base.mkService users) = (false, Base.mkService users)) ∧
  (∀ (users : list obj) (n : Z),
     Some (VNum id) ∉ oids users →
     Dto.remove id (Dto.mkService users n) = (false, Dto.mkService users n)).
Proof.
  split; [intros users Hout|intros users n Hout].
  - by apply base_remove_miss.
  - by apply dto_remove_miss.
Qed.

(** C4. After [remove] of a present id, [findOne] of that id should
    answer the absent value.  This is so wherever the stored ids are
    pairwise distinct ([remove_present_distinct], [remove_absent]),
    hence in the stores the DTO variant reaches while no DTO carries an
    [id] and the counter is below 2^53 ([dto_remove_present]).  In the
    base variant it is not so in the
    reachable store that holds Bob and Carol under the same id 2:
    [remove 2] answers true and leaves one record less, yet [findOne 2]
    still answers a record, Carol, afterwards. *)
Theorem base_remove_leaves_duplicate :
  let bob := User.mk 2 "Bob" "b@x.com" in
  let carol := User.mk 2 "Carol" "c@x.com" in
  let this :=
    Base.run [Base.Create "Alice" "a@x.com"; Base.Create "Bob" "b@x.com";
              Base.Remove 1; Base.Create "Carol" "c@x.com"] Base.init in
  let r := Base.remove 2 this in
  Base.reachable this ∧
  Base.findAll this = [bob; carol] ∧
  r.1 = true ∧
  length (Base.findAll this) = S (length (Base.findAll r.2)) ∧
  Base.findOne 2 r.2 = Some carol ∧
  Base.findOne 2 r.2 ≠ None.
Proof.
  intros bob carol this r. split_and!; try reflexivity.
  - apply base_reachable_run.
  - discriminate.
Qed.


(** * Further properties of the two services *)

(** Replacing or dropping a record that does not have the wanted id
    does not change what a scan for that id finds. *)
Lemma find_id_skip (id : Z) (l1 l2 : list User) (x : User) :
  User.id x ≠ id →
  find (λ user, User.id user = id) (l1 ++ x :: l2) =
  find (λ user, User.id user = id) (l1 ++ l2).
Proof.
  intros Hx. rewrite !find_app, find_cons. by rewrite decide_False by done.
Qed.

Lemma elem_of_ids_middle (l1 l2 : list User) (x : User) :
  User.id x ∈ ids (l1 ++ x :: l2).
Proof.
  rewrite ids_app, ids_cons. apply elem_of_app. right. apply list_elem_of_here.
Qed.

(** The same scan over the objects of the DTO variant. *)
Lemma find_oid_skip (id : Z) (l1 l2 : list obj) (x : obj) :
  x !! "id" ≠ Some (VNum id) →
  find (λ user : obj, user !! "id" = Some (VNum id)) (l1 ++ x :: l2) =
  find (λ user : obj, user !! "id" = Some (VNum id)) (l1 ++ l2).
Proof.
  intros Hx.
  rewrite !(find_app (λ user : obj, user !! "id" = Some (VNum id))).
  rewrite (find_cons (λ user : obj, user !! "id" = Some (VNum id))).
  by rewrite decide_False by done.
Qed.

(** ** The two variants on the same records *)

Lemma to_obj_id (u : User) : to_obj u !! "id" = Some (VNum (User.id u)).
Proof. done. Qed.

Lemma oids_to_obj (users : list User) :
  oids (to_obj <$> users) = (λ i, Some (VNum i)) <$> ids users.
Proof.
  unfold oids, ids. rewrite <-!list_fmap_compose. by apply list_fmap_ext.
Qed.

Lemma elem_of_oids_to_obj (id : Z) (users : list User) :
  Some (VNum id) ∈ oids (to_obj <$> users) ↔ id ∈ ids users.
Proof.
  rewrite oids_to_obj, list_elem_of_fmap. split.
  - by intros (i & [= ->] & Hi).
  - intros Hi. by exists id.
Qed.

(** On the objects of the same users, [findOne] and [remove] of the DTO
    variant do what those of the base variant do. *)
Lemma dto_findOne_to_obj (id : Z) (users : list User) (n : Z) :
  Dto.findOne id (Dto.mkService (to_obj <$> users) n) =
  to_obj <$> Base.findOne id (Base.mkService users).
Proof.
  destruct (ids_cases id users) as [Hout|(l1 & x & l2 & -> & Hl1 & Hx)].
  - rewrite base_findOne_miss by done. apply dto_findOne_miss. simpl.
    by rewrite elem_of_oids_to_obj.
  - rewrite base_findOne_hit by done.
    rewrite fmap_app, fmap_cons. apply dto_findOne_hit.
    + by rewrite elem_of_oids_to_obj.
    + by rewrite to_obj_id, Hx.
Qed.

Lemma dto_remove_to_obj (id : Z) (users : list User) (n : Z) :
  Dto.remove id (Dto.mkService (to_obj <$> users) n) =
  ((Base.remove id (Base.mkService users)).1,
   Dto.mkService
     (to_obj <$> Base.users (Base.remove id (Base.mkService users)).2) n).
Proof.
  destruct (ids_cases id users) as [Hout|(l1 & x & l2 & -> & Hl1 & Hx)].
  - rewrite base_remove_miss by done. apply dto_remove_miss. simpl.
    by rewrite elem_of_oids_to_obj.
  - rewrite base_remove_hit by done. simpl.
    rewrite !fmap_app, fmap_cons. apply dto_remove_hit.
    + by rewrite elem_of_oids_to_obj.
    + by rewrite to_obj_id, Hx.
Qed.

(** ** findOne *)

(** X1. Both variants: [findOne] answers a record exactly when that
    record is the first one in the sequence that has the id, and answers
    the absent value exactly when no stored record has the id; on the
    objects of the same users the DTO variant answers the object of the
    user the base variant answers. *)
Theorem findOne_first_or_absent (id : Z) (users : list User) (n : Z) (u : User) :
  (Base.findOne id (Base.mkService users) = Some u ↔
     ∃ l1 l2, users = l1 ++ u :: l2 ∧ (id ∉ ids l1) ∧ User.id u = id) ∧
  (Base.findOne id (Base.mkService users) = None ↔ id ∉ ids users) ∧
  Dto.findOne id (Dto.mkService (to_obj <$> users) n) =
    to_obj <$> Base.findOne id (Base.mkService users) ∧
  (∀ (objs : list obj) (o : obj),
     (Dto.findOne id (Dto.mkService objs n) = Some o ↔
        ∃ l1 l2, objs = l1 ++ o :: l2 ∧ (Some (VNum id) ∉ oids l1) ∧
                 o !! "id" = Some (VNum id)) ∧
     (Dto.findOne id (Dto.mkService objs n) = None ↔
        Some (VNum id) ∉ oids objs)).
Proof.
  unfold Base.findOne at 1 2. simpl. split_and!.
  - rewrite find_Some_first. by setoid_rewrite not_elem_of_ids.
  - by rewrite find_None, not_elem_of_ids.
  - apply dto_findOne_to_obj.
  - intros objs o. unfold Dto.findOne. simpl. split.
    + rewrite (find_Some_first (λ user : obj, user !! "id" = Some (VNum id))).
      by setoid_rewrite not_elem_of_oids.
    + rewrite (find_None (λ user : obj, user !! "id" = Some (VNum id))).
      by rewrite not_elem_of_oids.
Qed.

(** X2. Both variants: [update] answers a record, and [remove] answers
    true, exactly when some stored record has the id. *)
Theorem answer_iff_present (id : Z) (users : list User) (n : Z) :
  (∀ name email,
     is_Some (Base.update id name email (Base.mkService users)).1 ↔
     id ∈ ids users) ∧
  ((Base.remove id (Base.mkService users)).1 = true ↔ id ∈ ids users) ∧
  (∀ (objs : list obj) dto,
     is_Some (Dto.update id dto (Dto.mkService objs n)).1 ↔
     Some (VNum id) ∈ oids objs) ∧
  (∀ objs : list obj,
     (Dto.remove id (Dto.mkService objs n)).1 = true ↔
     Some (VNum id) ∈ oids objs).
Proof.
  split_and!.
  - intros name email.
    destruct (ids_cases id users) as [Hout|(l1 & x & l2 & -> & Hl1 & Hx)].
    + rewrite base_update_miss by done. simpl. split; [by intros [? ?]|done].
    + rewrite base_update_hit by done. simpl. split; [|done].
      intros _. rewrite <-Hx. apply elem_of_ids_middle.
  - destruct (ids_cases id users) as [Hout|(l1 & x & l2 & -> & Hl1 & Hx)].
    + by rewrite base_remove_miss by done.
    + rewrite base_remove_hit by done. simpl. split; [|done].
      intros _. rewrite <-Hx. apply elem_of_ids_middle.
  - intros objs dto.
    destruct (oids_cases id objs) as [Hout|(l1 & x & l2 & -> & Hl1 & Hx)].
    + rewrite dto_update_miss by done. simpl. split; [by intros [? ?]|done].
    + rewrite dto_update_hit by done. simpl. split; [|done].
      intros _. rewrite <-Hx. apply elem_of_oids_middle.
  - intros objs.
    destruct (oids_cases id objs) as [Hout|(l1 & x & l2 & -> & Hl1 & Hx)].
    + by rewrite dto_remove_miss by done.
    + rewrite dto_remove_hit by done. simpl. split; [|done].
      intros _. rewrite <-Hx. apply elem_of_oids_middle.
Qed.

(** ** Reading back what was written *)

(** X3. Right after [update id ...], [findOne id] answers the record
    the update answered; when the update answered the absent value, so
    does [findOne].  This holds in the base variant, and in the DTO
    variant when the DTO carries no [id] or carries the very [id] it is
    applied to. *)
Theorem findOne_after_update (id : Z) :
  (∀ (users : list User) name email,
     let r := Base.update id name email (Base.mkService users) in
     match r.1 with
     | Some u => Base.findOne id r.2 = Some u
     | None => Base.findOne id r.2 = None
     end) ∧
  (∀ (objs : list obj) (n : Z) dto,
     dto !! "id" = None ∨ dto !! "id" = Some (VNum id) →
     let r := Dto.update id dto (Dto.mkService objs n) in
     match r.1 with
     | Some o => Dto.findOne id r.2 = Some o
     | None => Dto.findOne id r.2 = None
     end).
Proof.
  split.
  - intros users name email r. subst r.
    destruct (ids_cases id users) as [Hout|(l1 & x & l2 & -> & Hl1 & Hx)].
    + rewrite base_update_miss by done. by apply base_findOne_miss.
    + rewrite base_update_hit by done. by apply base_findOne_hit.
  - intros objs n dto Hdto r. subst r.
    destruct (oids_cases id objs) as [Hout|(l1 & x & l2 & -> & Hl1 & Hx)].
    + rewrite dto_update_miss by done. by apply dto_findOne_miss.
    + rewrite dto_update_hit by done. simpl. apply dto_findOne_hit; [done|].
      rewrite spread_id. by destruct Hdto as [->| ->].
Qed.

Lemma findOne_after_update_witness :
  let users := [User.mk 1 "Alice" "a@x.com"; User.mk 2 "Bob" "b@x.com"] in
  let dto := UpdateUserDto.mk (Some "Al") None in
  Base.findOne 1 (Base.update 1 "Al" "al@x.com" (Base.mkService users)).2 =
    Some (User.mk 1 "Al" "al@x.com") ∧
  (Dto.update 1 dto (Dto.mkService (to_obj <$> users) 3)).1 =
    Some (to_obj (User.mk 1 "Al" "a@x.com")) ∧
  Dto.findOne 1 (Dto.update 1 dto (Dto.mkService (to_obj <$> users) 3)).2 =
    Some (to_obj (User.mk 1 "Al" "a@x.com")).
Proof.
  intros users dto.
  destruct (findOne_after_update 1) as [Hb Hd].
  assert (dto !! "id" = None ∨ dto !! "id" = Some (VNum 1)) as Hdto
    by (by left).
  specialize (Hb users "Al" "al@x.com").
  specialize (Hd (to_obj <$> users) 3 dto Hdto).
  split; [exact Hb|]. split; [by vm_compute|].
  assert ((Dto.update 1 dto (Dto.mkService (to_obj <$> users) 3)).1 =
          Some (to_obj (User.mk 1 "Al" "a@x.com"))) as Hr by (by vm_compute).
  cbv zeta in Hd. rewrite Hr in Hd. exact Hd.
Defined.

(** X4. [update] of one id leaves what [findOne] answers for every other
    id as it was: always in the base variant, and in the DTO variant
    unless the DTO carries that other id as its [id]. *)
Theorem update_keeps_other_ids (id id' : Z) :
  id' ≠ id →
  (∀ (users : list User) name email,
     Base.findOne id' (Base.update id name email (Base.mkService users)).2 =
     Base.findOne id' (Base.mkService users)) ∧
  (∀ (objs : list obj) (n : Z) dto,
     dto !! "id" ≠ Some (VNum id') →
     Dto.findOne id' (Dto.update id dto (Dto.mkService objs n)).2 =
     Dto.findOne id' (Dto.mkService objs n)).
Proof.
  intros Hne. split.
  - intros users name email.
    destruct (ids_cases id users) as [Hout|(l1 & x & l2 & -> & Hl1 & Hx)].
    + by rewrite base_update_miss.
    + rewrite base_update_hit by done. unfold Base.findOne. simpl.
      rewrite !find_id_skip; [done|congruence|simpl; congruence].
  - intros objs n dto Hdto.
    destruct (oids_cases id objs) as [Hout|(l1 & x & l2 & -> & Hl1 & Hx)].
    + by rewrite dto_update_miss.
    + rewrite dto_update_hit by done. unfold Dto.findOne. simpl.
      rewrite !find_oid_skip; [done|congruence|].
      rewrite spread_id. destruct (dto !! "id") as [v|]; congruence.
Qed.

Lemma update_keeps_other_ids_witness :
  let users := [User.mk 1 "Alice" "a@x.com"; User.mk 2 "Bob" "b@x.com"] in
  let dto : obj := {[ "id" := VNum 5; "name" := VStr "Al" ]} in
  Base.findOne 2 (Base.update 1 "Al" "al@x.com" (Base.mkService users)).2 =
    Some (User.mk 2 "Bob" "b@x.com") ∧
  Dto.findOne 2 (Dto.update 1 dto (Dto.mkService (to_obj <$> users) 3)).2 =
    Some (to_obj (User.mk 2 "Bob" "b@x.com")).
Proof.
  intros users dto.
  assert (2 ≠ 1) as Hne by lia.
  assert (dto !! "id" ≠ Some (VNum 2)) as Hdto by (by vm_compute).
  destruct (update_keeps_other_ids 1 2 Hne) as [Hb Hd].
  split; [rewrite Hb|rewrite Hd by exact Hdto]; reflexivity.
Defined.

(** X5. Both variants: [remove] of one id leaves what [findOne] answers
    for every other id as it was. *)
Theorem remove_keeps_other_ids (id id' : Z) (users : list User) (n : Z) :
  id' ≠ id →
  Base.findOne id' (Base.remove id (Base.mkService users)).2 =
    Base.findOne id' (Base.mkService users) ∧
  (∀ objs : list obj,
     Dto.findOne id' (Dto.remove id (Dto.mkService objs n)).2 =
     Dto.findOne id' (Dto.mkService objs n)).
Proof.
  intros Hne. split.
  - destruct (ids_cases id users) as [Hout|(l1 & x & l2 & -> & Hl1 & Hx)].
    + by rewrite base_remove_miss.
    + rewrite base_remove_hit by done. unfold Base.findOne. simpl.
      rewrite !find_id_skip; [done|congruence].
  - intros objs.
    destruct (oids_cases id objs) as [Hout|(l1 & x & l2 & -> & Hl1 & Hx)].
    + by rewrite dto_remove_miss.
    + rewrite dto_remove_hit by done. unfold Dto.findOne. simpl.
      rewrite !find_oid_skip; [done|congruence].
Qed.

Lemma remove_keeps_other_ids_witness :
  let users := [User.mk 1 "Alice" "a@x.com"; User.mk 2 "Bob" "b@x.com"] in
  Base.findOne 2 (Base.remove 1 (Base.mkService users)).2 =
    Some (User.mk 2 "Bob" "b@x.com") ∧
  Dto.findOne 2 (Dto.remove 1 (Dto.mkService (to_obj <$> users) 3)).2 =
    Some (to_obj (User.mk 2 "Bob" "b@x.com")).
Proof.
  intros users.
  assert (2 ≠ 1) as Hne by lia.
  destruct (remove_keeps_other_ids 1 2 users 3 Hne) as [Hb Hd].
  split; [rewrite Hb|rewrite Hd]; reflexivity.
Defined.

(** X6. Both variants: after a [create], [findOne] answers for every id
    what it answered before whenever that was a record; an id that was
    absent stays absent unless it is the id of the record just created,
    for which the new record is answered.  In particular a record that
    already holds the new id hides the new record from [findOne]. *)
Theorem findOne_after_create (id' : Z) (users : list User) (n : Z) :
  (∀ name email,
     let r := Base.create name email (Base.mkService users) in
     Base.findOne id' r.2 =
       match Base.findOne id' (Base.mkService users) with
       | Some u => Some u
       | None => if decide (User.id r.1 = id') then Some r.1 else None
       end) ∧
  (∀ (objs : list obj) dto,
     let r := Dto.create dto (Dto.mkService objs n) in
     Dto.findOne id' r.2 =
       match Dto.findOne id' (Dto.mkService objs n) with
       | Some u => Some u
       | None =>
           if decide (r.1 !! "id" = Some (VNum id')) then Some r.1 else None
       end).
Proof.
  split; [intros name email r|intros objs dto r]; subst r.
  - unfold Base.findOne, Base.create, push; simpl.
    by rewrite find_app, find_cons.
  - unfold Dto.findOne, Dto.create, push; simpl.
    rewrite (find_app (λ user : obj, user !! "id" = Some (VNum id'))).
    by rewrite (find_cons (λ user : obj, user !! "id" = Some (VNum id'))).
Qed.

(** X7. DTO variant: as long as no DTO carried an [id] and fewer than
    2^53 creates were made, a create with such a DTO returns the record
    with the id one above the number of creates so far, and [findOne] of
    that id answers the created record. *)
Theorem dto_findOne_created (ops : list Dto.op) (dto : obj) :
  Forall plain_op ops → plain dto → creates ops < Dto.two53 →
  let r := Dto.create dto (Dto.run ops Dto.init) in
  r.1 !! "id" = Some (VNum (1 + creates ops)) ∧
  Dto.findOne (1 + creates ops) r.2 = Some r.1.
Proof.
  intros Hplain Hdto Hbound r.
  destruct (dto_create_fresh ops dto Hplain Hdto Hbound) as (Hid & Hfresh & _).
  fold r in Hid, Hfresh. split; [done|].
  rewrite Hid in Hfresh. destruct (Dto.run ops Dto.init) as [users n].
  subst r. unfold Dto.create, push in *. simpl in *.
  by apply dto_findOne_hit.
Qed.

Lemma dto_findOne_created_witness :
  let ops := [Dto.Create (CreateUserDto.mk "Alice" "a@x.com");
              Dto.Create (CreateUserDto.mk "Bob" "b@x.com");
              Dto.Remove 1] in
  Forall plain_op ops ∧
  Dto.findOne 3
    (Dto.create (CreateUserDto.mk "Carol" "c@x.com") (Dto.run ops Dto.init)).2 =
    Some (to_obj (User.mk 3 "Carol" "c@x.com")).
Proof.
  intros ops.
  assert (Forall plain_op ops) as Hplain by (repeat constructor).
  assert (plain (CreateUserDto.mk "Carol" "c@x.com")) as Hdto by done.
  assert (creates ops < Dto.two53) as Hbound by (by vm_compute).
  split; [exact Hplain|].
  exact (proj2 (dto_findOne_created ops _ Hplain Hdto Hbound)).
Defined.

(** X8. Base variant: as long as no [remove] was called, the id a
    [create] hands out is not in the store, and [findOne] of that id
    then answers the created record. *)
Theorem base_findOne_created_without_remove (ops : list Base.op)
    (name email : string) :
  Forall no_remove ops →
  let this := Base.run ops Base.init in
  let r := Base.create name email this in
  (User.id r.1 ∉ ids (Base.users this)) ∧
  Base.findOne (User.id r.1) r.2 = Some r.1.
Proof.
  intros Hops this r.
  pose proof (base_create_fresh_without_remove ops name email Hops) as Hfresh.
  split; [exact Hfresh|].
  fold this in Hfresh. apply not_elem_of_ids in Hfresh.
  destruct this as [users].
  subst r. unfold Base.findOne, Base.create, push. simpl in *.
  rewrite find_app, find_cons, find_miss by done. by rewrite decide_True.
Qed.

Lemma base_findOne_created_without_remove_witness :
  let ops := [Base.Create "Alice" "a@x.com"; Base.Create "Bob" "b@x.com";
              Base.Update 1 "Al" "al@x.com"; Base.FindOne 2] in
  Forall no_remove ops ∧
  Base.findOne 3 (Base.create "Carol" "c@x.com" (Base.run ops Base.init)).2 =
    Some (User.mk 3 "Carol" "c@x.com").
Proof.
  intros ops.
  assert (Forall no_remove ops) as Hops by (repeat constructor).
  split; [exact Hops|].
  exact (proj2 (base_findOne_created_without_remove ops "Carol" "c@x.com" Hops)).
Defined.

(** ** update after update *)

(** X9. Base variant: [update] replaces the whole record, so of two
    updates of the same id only the second one shows: the answer and the
    store are those of the second update made alone. *)
Theorem base_update_last_wins (id : Z) (name1 email1 name2 email2 : string)
    (this : Base.UserService) :
  Base.update id name2 email2 (Base.update id name1 email1 this).2 =
  Base.update id name2 email2 this.
Proof.
  destruct this as [users].
  destruct (ids_cases id users) as [Hout|(l1 & x & l2 & -> & Hl1 & Hx)].
  - by rewrite (base_update_miss id name1 email1) by done.
  - rewrite (base_update_hit id name1 email1) by done. simpl.
    by rewrite !base_update_hit.
Qed.

(** X10. DTO variant: two updates of the same id, the first with a DTO
    that carries no [id], amount to one update with the two DTOs spread
    one over the other, the properties of the second winning; and an
    update with a DTO that carries no property changes nothing and
    answers the stored record when there is one. *)
Theorem dto_update_composes (id : Z) (this : Dto.UserService) :
  (∀ d1 d2 : obj,
     plain d1 →
     Dto.update id d2 (Dto.update id d1 this).2 =
     Dto.update id (d2 ∪ d1) this) ∧
  (Dto.update id ∅ this).2 = this ∧
  (∀ o, Dto.findOne id this = Some o → (Dto.update id ∅ this).1 = Some o).
Proof.
  destruct this as [users n].
  destruct (oids_cases id users) as [Hout|(l1 & x & l2 & -> & Hl1 & Hx)].
  - split_and!.
    + intros d1 d2 _. rewrite (dto_update_miss id d1) by done. simpl.
      by rewrite !dto_update_miss.
    + by rewrite dto_update_miss.
    + intros o. by rewrite dto_findOne_miss.
  - split_and!.
    + intros d1 d2 Hd1. rewrite (dto_update_hit id d1) by done. simpl.
      rewrite !dto_update_hit; [|done..|by rewrite spread_plain].
      by rewrite (assoc_L (∪)).
    + rewrite dto_update_hit by done. simpl. by rewrite (left_id_L ∅ (∪)).
    + intros o. rewrite dto_findOne_hit by done. intros [= ->].
      rewrite dto_update_hit by done. simpl. by rewrite (left_id_L ∅ (∪)).
Qed.

Lemma dto_update_composes_witness :
  let this :=
    Dto.mkService [to_obj (User.mk 1 "Alice" "a@x.com");
                   to_obj (User.mk 2 "Bob" "b@x.com")] 3 in
  let d1 := UpdateUserDto.mk (Some "Robert") (Some "r@x.com") in
  let d2 := UpdateUserDto.mk (Some "Rob") None in
  plain d1 ∧
  Dto.update 2 d2 (Dto.update 2 d1 this).2 =
    (Some (to_obj (User.mk 2 "Rob" "r@x.com")),
     Dto.mkService [to_obj (User.mk 1 "Alice" "a@x.com");
                    to_obj (User.mk 2 "Rob" "r@x.com")] 3) ∧
  Dto.update 2 d2 (Dto.update 2 d1 this).2 = Dto.update 2 (d2 ∪ d1) this.
Proof.
  intros this d1 d2.
  assert (plain d1) as Hd1 by done.
  split; [exact Hd1|]. split; [by vm_compute|].
  exact (proj1 (dto_update_composes 2 this) d1 d2 Hd1).
Defined.

(** X11. [update] never changes the number of records, whether or not
    the id is present, and in the DTO variant it leaves the id counter
    alone.  In the base variant it never changes which ids are stored
    nor their order; in the DTO variant that is so when the DTO carries
    no [id]. *)
Theorem update_keeps_ids (id : Z) :
  (∀ (users : list User) name email,
     let r := Base.update id name email (Base.mkService users) in
     ids (Base.users r.2) = ids users ∧
     length (Base.users r.2) = length users) ∧
  (∀ (objs : list obj) (n : Z) dto,
     let r := Dto.update id dto (Dto.mkService objs n) in
     length (Dto.users r.2) = length objs ∧
     Dto.idCounter r.2 = n ∧
     (plain dto → oids (Dto.users r.2) = oids objs)).
Proof.
  split; [intros users name email r|intros objs n dto r]; subst r.
  - apply (base_update_ids id name email (Base.mkService users)).
  - split_and!.
    + apply (dto_update_length id dto (Dto.mkService objs n)).
    + apply (dto_update_counter id dto (Dto.mkService objs n)).
    + intros Hp. by apply (dto_update_plain_oids id dto (Dto.mkService objs n)).
Qed.

Lemma update_keeps_ids_witness :
  let users := [User.mk 1 "Alice" "a@x.com"; User.mk 2 "Bob" "b@x.com"] in
  let dto := UpdateUserDto.mk (Some "Al") None in
  plain dto ∧
  ids (Base.users (Base.update 1 "Al" "al@x.com" (Base.mkService users)).2) =
    [1; 2] ∧
  oids (Dto.users (Dto.update 1 dto (Dto.mkService (to_obj <$> users) 3)).2) =
    [Some (VNum 1); Some (VNum 2)].
Proof.
  intros users dto.
  assert (plain dto) as Hp by done.
  destruct (update_keeps_ids 1) as [Hb Hd].
  destruct (Hb users "Al" "al@x.com") as [Hids _].
  destruct (Hd (to_obj <$> users) 3 dto) as (_ & _ & Hoids).
  split; [exact Hp|]. split; [exact Hids|exact (Hoids Hp)].
Defined.

(** ** remove *)

(** X12. Both variants: [remove] takes out one record when the id is
    present and none when it is not, and what stays is the old sequence
    with at most that one record left out, in the old order; in the DTO
    variant the id counter is not touched, and on the objects of the
    same users it removes the record the base variant removes. *)
Theorem remove_drops_at_most_one (id : Z) (users : list User) (n : Z) :
  let b := Base.remove id (Base.mkService users) in
  (length users =
     (length (Base.users b.2) + if b.1 then 1 else 0)%nat ∧
   Base.users b.2 `sublist_of` users) ∧
  Dto.remove id (Dto.mkService (to_obj <$> users) n) =
    (b.1, Dto.mkService (to_obj <$> Base.users b.2) n) ∧
  (∀ objs : list obj,
     let d := Dto.remove id (Dto.mkService objs n) in
     length objs = (length (Dto.users d.2) + if d.1 then 1 else 0)%nat ∧
     Dto.users d.2 `sublist_of` objs ∧
     Dto.idCounter d.2 = n).
Proof.
  intros b. subst b. split_and!.
  - destruct (ids_cases id users) as [Hout|(l1 & x & l2 & -> & Hl1 & Hx)].
    + rewrite base_remove_miss by done. simpl. lia.
    + rewrite base_remove_hit by done. simpl.
      rewrite !length_app. simpl. lia.
  - destruct (ids_cases id users) as [Hout|(l1 & x & l2 & -> & Hl1 & Hx)].
    + by rewrite base_remove_miss.
    + rewrite base_remove_hit by done. simpl.
      apply sublist_app; [done|]. by apply sublist_cons.
  - apply dto_remove_to_obj.
  - intros objs d. subst d.
    destruct (oids_cases id objs) as [Hout|(l1 & x & l2 & -> & Hl1 & Hx)].
    + rewrite dto_remove_miss by done. simpl. split_and!; [lia|done|done].
    + rewrite dto_remove_hit by done. simpl. split_and!; [| |done].
      * rewrite !length_app. simpl. lia.
      * apply sublist_app; [done|]. by apply sublist_cons.
Qed.

(** X13. An [update] followed by a [remove] of the same id leaves the
    store, and gives the answer, of the [remove] alone: always in the
    base variant, and in the DTO variant when the DTO carries no [id]. *)
Theorem remove_after_update (id : Z) :
  (∀ (users : list User) name email,
     Base.remove id (Base.update id name email (Base.mkService users)).2 =
     Base.remove id (Base.mkService users)) ∧
  (∀ (objs : list obj) (n : Z) dto,
     plain dto →
     Dto.remove id (Dto.update id dto (Dto.mkService objs n)).2 =
     Dto.remove id (Dto.mkService objs n)).
Proof.
  split.
  - intros users name email.
    destruct (ids_cases id users) as [Hout|(l1 & x & l2 & -> & Hl1 & Hx)].
    + by rewrite base_update_miss by done.
    + rewrite base_update_hit by done. simpl. by rewrite !base_remove_hit.
  - intros objs n dto Hp.
    destruct (oids_cases id objs) as [Hout|(l1 & x & l2 & -> & Hl1 & Hx)].
    + by rewrite dto_update_miss by done.
    + rewrite dto_update_hit by done. simpl.
      rewrite !dto_remove_hit; [done..|by rewrite spread_plain].
Qed.

Lemma remove_after_update_witness :
  let users := [User.mk 1 "Alice" "a@x.com"; User.mk 2 "Bob" "b@x.com"] in
  let dto := UpdateUserDto.mk (Some "Al") None in
  plain dto ∧
  Base.remove 1 (Base.update 1 "Al" "al@x.com" (Base.mkService users)).2 =
    (true, Base.mkService [User.mk 2 "Bob" "b@x.com"]) ∧
  Dto.remove 1 (Dto.update 1 dto (Dto.mkService (to_obj <$> users) 3)).2 =
    Dto.remove 1 (Dto.mkService (to_obj <$> users) 3).
Proof.
  intros users dto.
  assert (plain dto) as Hp by done.
  destruct (remove_after_update 1) as [Hb Hd].
  split; [exact Hp|]. split; [by rewrite Hb|exact (Hd _ 3 dto Hp)].
Defined.

(** ** The order of the ids in the DTO variant *)

(** X14. DTO variant: in every store reached by calls none of whose DTOs
    carries an [id], at most 2^53 of them creates, the ids are numbers
    that grow strictly along the sequence, so [findAll] lists the
    records from the oldest id to the newest. *)
Theorem dto_ids_increasing (ops : list Dto.op) :
  Forall plain_op ops → creates ops ≤ Dto.two53 →
  ∃ l : list Z,
    oids (Dto.findAll (Dto.run ops Dto.init)) = (λ i, Some (VNum i)) <$> l ∧
    StronglySorted Z.lt l.
Proof.
  intros Hplain Hbound.
  destruct (dto_inv_run ops Hplain Hbound) as (_ & _ & Hnum & Hsort & _).
  exists (nid <$> Dto.users (Dto.run ops Dto.init)). split; [|done].
  by apply oids_nid.
Qed.

Lemma dto_ids_increasing_witness :
  let ops :=
    [Dto.Create (CreateUserDto.mk "Alice" "a@x.com");
     Dto.Create (CreateUserDto.mk "Bob" "b@x.com");
     Dto.Remove 1;
     Dto.Create (CreateUserDto.mk "Carol" "c@x.com")] in
  Forall plain_op ops ∧ creates ops ≤ Dto.two53 ∧
  oids (Dto.findAll (Dto.run ops Dto.init)) = [Some (VNum 2); Some (VNum 3)] ∧
  ∃ l : list Z,
    oids (Dto.findAll (Dto.run ops Dto.init)) = (λ i, Some (VNum i)) <$> l ∧
    StronglySorted Z.lt l.
Proof.
  intros ops.
  assert (Forall plain_op ops) as Hplain by (repeat constructor).
  assert (creates ops ≤ Dto.two53) as Hbound by (by vm_compute).
  split; [exact Hplain|]. split; [exact Hbound|]. split; [by vm_compute|].
  exact (dto_ids_increasing ops Hplain Hbound).
Defined.

(** ** create followed by remove *)

(** X15. DTO variant: as long as no DTO carried an [id] and fewer than
    2^53 creates were made, removing the id that a create with such a
    DTO has just returned answers true and gives back the records of
    before the create; only the counter has moved on. *)
Theorem dto_create_then_remove (ops : list Dto.op) (dto : obj) :
  Forall plain_op ops → plain dto → creates ops < Dto.two53 →
  let this := Dto.run ops Dto.init in
  let r := Dto.create dto this in
  Dto.remove (1 + creates ops) r.2 =
    (true, Dto.mkService (Dto.users this) (Dto.incr (Dto.idCounter this))).
Proof.
  intros Hplain Hdto Hbound this r.
  destruct (dto_create_fresh ops dto Hplain Hdto Hbound) as (Hid & Hfresh & _).
  fold this in Hid, Hfresh. fold r in Hid, Hfresh. rewrite Hid in Hfresh.
  destruct this as [users n]. subst r.
  unfold Dto.create, push in *. simpl in *.
  rewrite dto_remove_hit by done. by rewrite app_nil_r.
Qed.

Lemma dto_create_then_remove_witness :
  let ops := [Dto.Create (CreateUserDto.mk "Alice" "a@x.com");
              Dto.Create (CreateUserDto.mk "Bob" "b@x.com");
              Dto.Remove 1] in
  Forall plain_op ops ∧
  Dto.remove 3
    (Dto.create (CreateUserDto.mk "Carol" "c@x.com") (Dto.run ops Dto.init)).2 =
    (true, Dto.mkService [to_obj (User.mk 2 "Bob" "b@x.com")] 4).
Proof.
  intros ops.
  assert (Forall plain_op ops) as Hplain by (repeat constructor).
  assert (plain (CreateUserDto.mk "Carol" "c@x.com")) as Hdto by done.
  assert (creates ops < Dto.two53) as Hbound by (by vm_compute).
  split; [exact Hplain|].
  exact (dto_create_then_remove ops _ Hplain Hdto Hbound).
Defined.

(** X16. Base variant: removing the id that a [create] has just
    returned always answers true.  When no older record had that id the
    store is back to what it was before the create; when an older record
    had it, that older record is the one deleted and the new record
    stays, last in the sequence. *)
Theorem base_create_then_remove (name email : string)
    (this : Base.UserService) :
  let r := Base.create name email this in
  Base.remove (User.id r.1) r.2 =
    (true,
     if decide (User.id r.1 ∈ ids (Base.users this))
     then Base.mkService
            (push (Base.users (Base.remove (User.id r.1) this).2) r.1)
     else this).
Proof.
  intros r. destruct this as [users]. subst r.
  unfold Base.create, push. simpl.
  generalize (Z.of_nat (length users) + 1). intros k.
  destruct (ids_cases k users) as [Hout|(l1 & x & l2 & -> & Hl1 & Hx)].
  - rewrite decide_False by done.
    rewrite (base_remove_hit k users _ []) by done. by rewrite app_nil_r.
  - rewrite decide_True by (rewrite <-Hx; apply elem_of_ids_middle).
    rewrite <-app_assoc, <-app_comm_cons.
    rewrite !base_remove_hit by done. simpl. by rewrite app_assoc.
Qed.

(** X17. DTO variant: in every store reached by calls none of whose DTOs
    carries an [id], at most 2^53 of them creates, a removed id is gone
    for good: after [remove id], whatever it answered, [findOne id]
    answers the absent value and a second [remove id] answers false and
    changes nothing. *)
Theorem dto_remove_is_final (ops : list Dto.op) (id : Z) :
  Forall plain_op ops → creates ops ≤ Dto.two53 →
  let r := Dto.remove id (Dto.run ops Dto.init) in
  Dto.findOne id r.2 = None ∧ Dto.remove id r.2 = (false, r.2).
Proof.
  intros Hplain Hbound r. subst r.
  pose proof (dto_inv_NoDup _ _ (dto_inv_run ops Hplain Hbound)) as Hnd.
  destruct (Dto.run ops Dto.init) as [users n]. simpl in Hnd.
  destruct (decide (Some (VNum id) ∈ oids users)) as [Hin|Hout].
  - destruct (dto_remove_present_distinct id users n Hnd Hin)
      as (users' & _ & Hgone & -> & Hfind). simpl. split; [done|].
    by apply dto_remove_miss.
  - rewrite dto_remove_miss by done. simpl. split.
    + by apply dto_findOne_miss.
    + by apply dto_remove_miss.
Qed.

Lemma dto_remove_is_final_witness :
  let ops := [Dto.Create (CreateUserDto.mk "Alice" "a@x.com");
              Dto.Create (CreateUserDto.mk "Bob" "b@x.com")] in
  let this := Dto.run ops Dto.init in
  Forall plain_op ops ∧
  (Dto.remove 1 this).1 = true ∧
  Dto.findOne 1 (Dto.remove 1 this).2 = None ∧
  Dto.remove 1 (Dto.remove 1 this).2 = (false, (Dto.remove 1 this).2).
Proof.
  intros ops this.
  assert (Forall plain_op ops) as Hplain by (repeat constructor).
  assert (creates ops ≤ Dto.two53) as Hbound by (by vm_compute).
  split; [exact Hplain|]. split; [reflexivity|].
  exact (dto_remove_is_final ops 1 Hplain Hbound).
Defined.

(** ** How far the ids can go *)

Lemma base_remove_ids id this :
  ids (Base.users (Base.remove id this).2) `sublist_of` ids (Base.users this).
Proof.
  destruct this as [l]. simpl.
  destruct (ids_cases id l) as [Hout|(l1 & x & l2 & -> & Hl1 & Hx)].
  - by rewrite base_remove_miss.
  - rewrite base_remove_hit by done. simpl.
    rewrite !ids_app, ids_cons. apply sublist_app; [done|].
    by apply sublist_cons.
Qed.

Lemma ids_length (l : list User) : length (ids l) = length l.
Proof. apply length_fmap. Qed.

Lemma base_bounded_step o this (c : nat) :
  (length (Base.users this) ≤ c)%nat →
  Forall (λ i, 1 ≤ i ≤ Z.of_nat c) (ids (Base.users this)) →
  let c' := (c + if is_base_create o then 1 else 0)%nat in
  (length (Base.users (Base.step o this)) ≤ c')%nat ∧
  Forall (λ i, 1 ≤ i ≤ Z.of_nat c') (ids (Base.users (Base.step o this))).
Proof.
  intros Hlen Hall c'. subst c'.
  destruct o as [name email| |id|id name email|id]; simpl;
    rewrite ?Nat.add_0_r; try done.
  - unfold push. rewrite ids_app, length_app. simpl. split; [lia|].
    apply Forall_app. split.
    + eapply Forall_impl; [exact Hall|]. simpl. lia.
    + apply Forall_singleton. lia.
  - destruct (base_update_ids id name email this) as [-> ->]. done.
  - pose proof (base_remove_ids id this) as Hsub. split.
    + apply sublist_length in Hsub. rewrite !ids_length in Hsub. lia.
    + rewrite Forall_forall in Hall |- *. intros i Hi. apply Hall.
      by apply (sublist_subseteq _ _ Hsub).
Qed.

Lemma base_bounded_run ops this (c : nat) :
  (length (Base.users this) ≤ c)%nat →
  Forall (λ i, 1 ≤ i ≤ Z.of_nat c) (ids (Base.users this)) →
  let c' := (c + length (filter is_base_create ops))%nat in
  (length (Base.users (Base.run ops this)) ≤ c')%nat ∧
  Forall (λ i, 1 ≤ i ≤ Z.of_nat c') (ids (Base.users (Base.run ops this))).
Proof.
  revert this c. induction ops as [|o ops IH]; intros this c Hlen Hall.
  - simpl. by rewrite Nat.add_0_r.
  - destruct (base_bounded_step o this c Hlen Hall) as [Hlen' Hall'].
    specialize (IH _ _ Hlen' Hall'). simpl in IH.
    change (Base.run (o :: ops) this) with (Base.run ops (Base.step o this)).
    destruct o as [name email| |id|id name email|id]; simpl in IH;
      rewrite 1?filter_cons_True by done;
      rewrite 1?filter_cons_False by (by intros []);
      rewrite ?Nat.add_0_r in IH; try done.
    simpl. by rewrite <-Nat.add_assoc in IH.
Qed.

(** X18. Base variant: after any sequence of calls from the empty store,
    every stored id is a positive integer no larger than the number of
    [create] calls made, and no more records are stored than that. *)
Theorem base_ids_bounded_by_creates (ops : list Base.op) :
  let this := Base.run ops Base.init in
  let creates := length (filter is_base_create ops) in
  (length (Base.findAll this) ≤ creates)%nat ∧
  Forall (λ i, 1 ≤ i ≤ Z.of_nat creates) (ids (Base.findAll this)).
Proof.
  intros this creates.
  apply (base_bounded_run ops Base.init 0); simpl; [lia|constructor].
Qed.

Lemma dto_length_step o this :
  (length (Dto.users (Dto.step o this)) ≤
   length (Dto.users this) + if is_create o then 1 else 0)%nat.
Proof.
  destruct o as [dto| |id|id dto|id]; simpl; try lia.
  - unfold push. rewrite length_app. simpl. lia.
  - rewrite dto_update_length. lia.
  - pose proof (dto_remove_sublist id this) as Hsub.
    apply sublist_length in Hsub. lia.
Qed.

Lemma dto_length_run ops this :
  Z.of_nat (length (Dto.users (Dto.run ops this))) ≤
  Z.of_nat (length (Dto.users this)) + creates ops.
Proof.
  revert this. induction ops as [|o ops IH]; intros this.
  - rewrite creates_nil. simpl. lia.
  - change (Dto.run (o :: ops) this) with (Dto.run ops (Dto.step o this)).
    specialize (IH (Dto.step o this)). pose proof (dto_length_step o this).
    rewrite creates_cons. destruct (is_create o); lia.
Qed.

(** X19. DTO variant: after any sequence of calls from the initial
    service, whatever the DTOs carried and whatever was updated or
    removed in between, the id counter stands at one more than the
    number of [create] calls made, or at 2^53 once that many creates
    were made, and no more records are stored than creates were made. *)
Theorem dto_counter_is_creates (ops : list Dto.op) :
  let this := Dto.run ops Dto.init in
  Dto.idCounter this = Z.min (1 + creates ops) Dto.two53 ∧
  Z.of_nat (length (Dto.findAll this)) ≤ creates ops.
Proof.
  intros this. subst this. split.
  - pose proof two53_gt_1.
    rewrite (dto_counter_counts ops Dto.init 0); [done|simpl; lia].
  - apply (dto_length_run ops Dto.init).
Qed.

(** ** DTOs that carry an [id] *)

(** X21. DTO variant: the record a [create] stores and returns has the
    properties of the DTO, and under [id] the counter's value only when
    the DTO carries no [id] of its own; it is appended last, and the
    counter moves on whether or not its value was used. *)
Theorem dto_create_takes_dto_id (dto : obj) (this : Dto.UserService) :
  let r := Dto.create dto this in
  r.1 !! "id" = match dto !! "id" with
                | Some v => Some v
                | None => Some (VNum (Dto.idCounter this))
                end ∧
  (∀ key : string, key ≠ "id" → r.1 !! key = dto !! key) ∧
  Dto.findAll r.2 = Dto.findAll this ++ [r.1] ∧
  Dto.idCounter r.2 = Dto.incr (Dto.idCounter this).
Proof.
  intros r. subst r. unfold Dto.create, Dto.findAll, push. simpl.
  split_and!; [|  |done|done].
  - rewrite spread_id. by rewrite lookup_singleton_eq.
  - intros key Hkey. rewrite lookup_union.
    rewrite lookup_singleton_ne by done. by destruct (dto !! key).
Qed.


